(** * The PIR pass framework of paddle/pir/pass/pass.h

    A shallow embedding of [detail::PassExecutionState], [detail::PassInfo],
    [Pass] and [PatternRewritePass], together with the collaborators the
    header only includes (the enforce macro, the analysis cache, the pattern
    set, the greedy rewrite driver and the pass manager). *)

From Stdlib Require Import ZArith Lia Ascii.
From stdpp Require Import base option list strings gmap sorting pretty.

Local Open Scope string_scope.
Local Open Scope list_scope.

(** ** Control effects

    A call either returns, throws (the exception of [IR_ENFORCE]), or does
    not return; the last case is what a run that exhausts its step budget
    stands for. *)

Inductive Exception : Type :=
  | EnforceNotMet (what : string).

Inductive Outcome (A : Type) : Type :=
  | Ok (a : A)
  | Throw (e : Exception)
  | NoReturn.

Arguments Ok {A} a.
Arguments Throw {A} e.
Arguments NoReturn {A}.

#[global] Instance Outcome_ret : MRet Outcome := fun A a => Ok a.

#[global] Instance Outcome_bind : MBind Outcome := fun A B k m =>
  match m with
  | Ok a => k a
  | Throw e => Throw e
  | NoReturn => NoReturn
  end.

Definition returns {A} (m : Outcome A) : bool :=
  match m with Ok _ => true | _ => false end.

(** Modelled from the spec: the macro [IR_ENFORCE(COND, msg)] is missing
    from the sources; a violated enforce is a configuration error that is
    "reported immediately" by "throwing/raising", and a satisfied one does
    nothing.  The exception carries the message handed to the macro; the
    file and line that [EnforceNotMet] adds to it are left out. *)
Definition IR_ENFORCE (cond : bool) (msg : string) : Outcome unit :=
  if cond then Ok tt else Throw (EnforceNotMet msg).

(** ** The IR, as far as the pass framework looks into it *)

(** Modelled from the spec: [Operation] and [Region] are missing from the
    sources (the header only forward-declares [Operation]); the framework
    needs from an operation its kind, its "operand values, result values,
    and nested regions", and from a region the "contained operations in
    definition order".  Operations and values are told apart by a number. *)
Definition OpId := nat.
Definition Value := nat.

#[warnings="-register-all"] Inductive Operation : Type :=
  mkOperation {
    op_id : OpId;
    op_name : string;
    op_attr : Z;
    op_operands : list Value;
    op_results : list Value;
    op_regions : list (list Operation)
  }.

Definition Region : Type := list Operation.

Definition set_regions (op : Operation) (rs : list Region) : Operation :=
  mkOperation (op_id op) (op_name op) (op_attr op)
              (op_operands op) (op_results op) rs.

(** Modelled from the spec: [Operation::region(index)] is missing from the
    sources; it is the capability to "enumerate ... nested regions".  Asking
    for a region the operation does not have is taken to raise. *)
Definition region (op : Operation) (index : nat) : Outcome Region :=
  match op_regions op !! index with
  | Some r => Ok r
  | None => Throw (EnforceNotMet "invalid region index")
  end.

(** Modelled from the spec: [IrContext] is missing from the sources; it is
    the "context object (consumed, opaque)". *)
Record IrContext : Type := mkIrContext { ctx_id : nat }.

(** ** Analysis cache ([paddle/pir/pass/analysis_manager.h], not part of the
    header) *)

Definition TypeId := nat.
Definition ScopeId := nat.

(** Modelled from the spec: [PreservedAnalyses] is missing from the sources;
    it is "a set-valued declaration a pass returns stating which analysis
    kinds remain valid after it ran".  Its default constructor preserves
    nothing. *)
Definition PreservedAnalyses : Type := gset TypeId.

Definition PreservedAnalyses_default : PreservedAnalyses := ∅.

(** Modelled from the spec: [AnalysisManager] is missing from the sources;
    "the cache maps (analysis-kind-identifier, scope-identifier) to an
    analysis result object". *)
Record AnalysisManager : Type := mkAnalysisManager {
  am_cache : gmap (TypeId * ScopeId) nat
}.

(** Modelled from the spec: [invalidate_all_except] is missing from the
    sources; "for every cached entry whose kind is not in the preserved set,
    evict; entries whose kind is in the preserved set survive untouched". *)
Definition invalidate_all_except (pa : PreservedAnalyses)
    (m : AnalysisManager) : AnalysisManager :=
  mkAnalysisManager
    (filter (fun kv : (TypeId * ScopeId) * nat => kv.1.1 ∈ pa) (am_cache m)).

(** ** [detail::PassExecutionState] and [detail::PassInfo] *)

Module detail.

Record PassExecutionState : Type := mkPassExecutionState {
  ir : Operation;
  pass_failed : bool;
  am : AnalysisManager;
  preserved_analyses : PreservedAnalyses
}.

(** [explicit PassExecutionState(Operation* ir, const AnalysisManager& am)
      : ir(ir), pass_failed(false), am(am) {}] ; [preserved_analyses] is
    default-initialised. *)
Definition PassExecutionState_new (ir0 : Operation) (am0 : AnalysisManager)
    : PassExecutionState :=
  {| ir := ir0;
     pass_failed := false;
     am := am0;
     preserved_analyses := PreservedAnalyses_default |}.

Definition set_pass_failed (st : PassExecutionState) (b : bool)
    : PassExecutionState :=
  {| ir := ir st;
     pass_failed := b;
     am := am st;
     preserved_analyses := preserved_analyses st |}.

Record PassInfo : Type := mkPassInfo {
  name : string;
  opt_level : Z;   (* uint8_t *)
  dependents : list string
}.

End detail.

(** ** [class Pass] *)

Record Pass : Type := mkPass {
  pass_info_ : detail.PassInfo;
  pass_state_ : option detail.PassExecutionState
}.

(** [Pass(name, opt_level, dependents) : pass_info_(name, opt_level,
    dependents) {}]; the optional state starts empty. *)
Definition Pass_new (name : string) (opt_level : Z) (dependents : list string)
    : Pass :=
  {| pass_info_ := detail.mkPassInfo name opt_level dependents;
     pass_state_ := None |}.

Definition set_pass_state (p : Pass) (st : option detail.PassExecutionState)
    : Pass :=
  {| pass_info_ := pass_info_ p; pass_state_ := st |}.

Definition pass_info (p : Pass) : detail.PassInfo := pass_info_ p.

Definition name (p : Pass) : string := detail.name (pass_info p).

Definition has_value {A} (o : option A) : bool :=
  match o with Some _ => true | None => false end.

(** [IR_ENFORCE(pass_state_.has_value() == true, "pass state has no value");
     return *pass_state_;] *)
Definition pass_state (p : Pass) : Outcome detail.PassExecutionState :=
  _ ← IR_ENFORCE (Bool.eqb (has_value (pass_state_ p)) true)
                 "pass state has no value";
  match pass_state_ p with
  | Some st => Ok st
  | None => Throw (EnforceNotMet "pass state has no value") (* not reached *)
  end.

(** [AnalysisManager analysis_manager() { return pass_state().am; }] *)
Definition analysis_manager (p : Pass) : Outcome AnalysisManager :=
  st ← pass_state p; Ok (detail.am st).

(** [void SignalPassFailure() { pass_state().pass_failed = true; }]: the
    write goes through the reference into the pass's own optional. *)
Definition SignalPassFailure (p : Pass) : Outcome Pass :=
  st ← pass_state p;
  Ok (set_pass_state p (Some (detail.set_pass_failed st true))).

(** [virtual bool Initialize(IrContext* context) { return true; }] *)
Definition Pass_Initialize (p : Pass) (context : IrContext)
    : Outcome (bool * Pass) :=
  Ok (true, p).

(** Modelled from the spec: the body of [Pass::CanApplyOn] is missing from
    the sources (the header only declares it); the spec gives it as "a fast
    precondition check (default true)". *)
Definition Pass_CanApplyOn (p : Pass) (op : Operation) : bool := true.

(** ** Pattern sets ([paddle/pir/pattern_rewrite], not part of the header) *)

(** Modelled from the spec: the capabilities a rewrite may use on the graph
    are missing from the sources; the spec lists them as "erase an operation,
    replace all uses of a value with another value, clone/create an
    operation".  A created operation is placed in front of the operation the
    rule matched on. *)
Inductive RewriteAction : Type :=
  | CreateOp (o : Operation)
  | ReplaceAllUsesWith (v v' : Value)
  | EraseOp (id : OpId).

(** Modelled from the spec: [RewritePattern] is missing from the sources; a
    rule is "scoped to an operation kind", "carries a benefit/priority value"
    and has a match predicate whose success comes with the rewrite. *)
Record RewritePattern : Type := mkRewritePattern {
  root_kind : string;
  benefit : nat;
  match_and_rewrite : Region -> Operation -> option (list RewriteAction)
}.

(** Modelled from the spec: [RewritePatternSet] is missing from the sources;
    it is the mutable builder, kept here in registration order. *)
Definition RewritePatternSet : Type := list RewritePattern.

(** Modelled from the spec: [RewritePatternSet::Add] is missing from the
    sources; a rule registered later comes later in the builder. *)
Definition Add (p : RewritePattern) (ps : RewritePatternSet)
    : RewritePatternSet := ps ++ [p].

(** Modelled from the spec: [RewritePatternSet::Empty] is missing from the
    sources; a set is empty when it "registers zero rules". *)
Definition Empty (ps : RewritePatternSet) : bool :=
  match ps with [] => true | _ :: _ => false end.

(** A registered rule together with its registration index. *)
Definition Registered : Type := nat * RewritePattern.

(** Modelled from the spec: the order of the candidates is missing from the
    sources; [prefers x y] says that [x] is tried no later than [y], "in
    descending benefit order, breaking ties by registration order". *)
Definition prefers (x y : Registered) : bool :=
  (benefit y.2 <? benefit x.2)%nat
  || ((benefit x.2 =? benefit y.2)%nat && (x.1 <=? y.1)%nat).

(** Modelled from the spec: puts a rule at its place among the candidates
    of its kind, in front of the first one it is preferred to. *)
Fixpoint insert_by_benefit (x : Registered) (l : list Registered)
    : list Registered :=
  match l with
  | [] => [x]
  | y :: l' => if prefers x y then x :: y :: l'
               else y :: insert_by_benefit x l'
  end.

(** Modelled from the spec: [FrozenRewritePatternSet] is missing from the
    sources; it is the sealed "mapping from operation-kind to ordered list of
    candidate rewrite rules". *)
Record FrozenRewritePatternSet : Type := mkFrozen {
  rules_of_kind : gmap string (list Registered)
}.

(** Modelled from the spec: a default-constructed frozen set, as the member
    [patterns_] is before [Initialize], holds no rule. *)
Definition FrozenRewritePatternSet_default : FrozenRewritePatternSet :=
  mkFrozen ∅.

Definition add_rule (x : Registered) (m : gmap string (list Registered))
    : gmap string (list Registered) :=
  <[root_kind x.2 := insert_by_benefit x (default [] (m !! root_kind x.2))]> m.

Definition registered (ps : RewritePatternSet) : list Registered :=
  imap (fun i p => (i, p)) ps.

(** Modelled from the spec: the constructor
    [FrozenRewritePatternSet(std::move(ps))] is missing from the sources;
    sealing files every registered rule under its operation kind. *)
Definition FrozenRewritePatternSet_new (ps : RewritePatternSet)
    : FrozenRewritePatternSet :=
  mkFrozen (foldr add_rule ∅ (registered ps)).

(** Modelled from the spec: the query of the frozen set is missing from the
    sources; it gives the "rules whose kind matches the operation's
    kind". *)
Definition candidates (fps : FrozenRewritePatternSet) (kind : string)
    : list Registered :=
  default [] (rules_of_kind fps !! kind).

(** Modelled from the spec: [GreedyRewriteConfig] is missing from the
    sources; it holds the "traversal order flag (top-down vs bottom-up)" and
    the "maximum iteration count". *)
Record GreedyRewriteConfig : Type := mkGreedyRewriteConfig {
  use_top_down_traversal : bool;
  max_iterations : nat
}.

Definition set_use_top_down_traversal (cfg : GreedyRewriteConfig) (b : bool)
    : GreedyRewriteConfig :=
  {| use_top_down_traversal := b; max_iterations := max_iterations cfg |}.

Definition set_max_iterations (cfg : GreedyRewriteConfig) (n : nat)
    : GreedyRewriteConfig :=
  {| use_top_down_traversal := use_top_down_traversal cfg;
     max_iterations := n |}.

(** ** Graph capabilities the driver consumes *)

(** Modelled from the spec: the IR's own operations are missing from the
    sources; the driver needs to "enumerate contained operations in
    definition order", here with the nested regions in pre-order. *)
Fixpoint walk_op (o : Operation) : list Operation :=
  match o with
  | mkOperation _ _ _ _ _ regs => o :: flat_map (flat_map walk_op) regs
  end.

Definition walk (r : Region) : list Operation := flat_map walk_op r.

(** Modelled from the spec: editing the graph in place is missing from the
    sources; [rebuild] applies an edit of operation lists at every nesting
    level, innermost regions first, and the capabilities below are such
    edits. *)
Fixpoint rebuild (f : Region -> Region) (o : Operation) : Operation :=
  match o with
  | mkOperation i k a os rs regs =>
      mkOperation i k a os rs (map (fun r => f (map (rebuild f) r)) regs)
  end.

Definition rebuild_region (f : Region -> Region) (r : Region) : Region :=
  f (map (rebuild f) r).

Definition set_operands (o : Operation) (os : list Value) : Operation :=
  mkOperation (op_id o) (op_name o) (op_attr o) os (op_results o)
              (op_regions o).

Definition lookup_op (r : Region) (id : OpId) : option Operation :=
  List.find (fun o => (op_id o =? id)%nat) (walk r).

Definition uses (v : Value) (o : Operation) : bool :=
  existsb (Nat.eqb v) (op_operands o).

Definition users (r : Region) (v : Value) : list Operation :=
  List.filter (uses v) (walk r).

Definition erase_op (id : OpId) : Region -> Region :=
  rebuild_region (List.filter (fun o => negb (op_id o =? id)%nat)).

Definition replace_all_uses (v v' : Value) : Region -> Region :=
  rebuild_region
    (map (fun o => set_operands o
            (map (fun x => if (x =? v)%nat then v' else x) (op_operands o)))).

Definition insert_before (root : OpId) (o : Operation) : Region -> Region :=
  rebuild_region
    (flat_map (fun x => if (op_id x =? root)%nat then [o; x] else [x])).

(** ** The greedy pattern-rewrite driver (not part of the header) *)

Definition Worklist : Type := list OpId.

(** Modelled from the spec: the re-queue discipline is missing from the
    sources; "newly created or modified operations are pushed back onto the
    worklist (their users are also re-queued)". *)
Definition requeue (r : Region) (o : Operation) : Worklist :=
  op_id o :: map op_id (flat_map (users r) (op_results o)).

(** Modelled from the spec: how one rewrite action changes the graph and the
    worklist is missing from the sources; an erased operation stays in the
    worklist as a stale entry, to be skipped when popped. *)
Definition apply_action (root : OpId) (st : Region * Worklist)
    (a : RewriteAction) : Region * Worklist :=
  let '(g, wl) := st in
  match a with
  | CreateOp o =>
      let g' := insert_before root o g in (g', wl ++ requeue g' o)
  | ReplaceAllUsesWith v v' =>
      let g' := replace_all_uses v v' g in
      (g', wl ++ flat_map (requeue g') (users g v))
  | EraseOp id => (erase_op id g, wl)
  end.

(** Modelled from the spec: rule selection is missing from the sources;
    "among matching rules, try in descending benefit order, breaking ties by
    registration order" and "apply the first rule whose match predicate
    succeeds".  The candidates come ordered from the frozen set. *)
Fixpoint select_rule (cands : list Registered) (g : Region) (op : Operation)
    : option (Registered * list RewriteAction) :=
  match cands with
  | [] => None
  | x :: rest =>
      match match_and_rewrite x.2 g op with
      | Some acts => Some (x, acts)
      | None => select_rule rest g op
      end
  end.

(** The rule applications of a run, in order: the operation rewritten and
    the registration index of the rule. *)
Definition Applied : Type := list (OpId * nat).

(** Modelled from the spec: seeding is missing from the sources; "seed a
    worklist with all operations in the region, ordered top-down (pre-order)
    or bottom-up per configuration". *)
Definition seed (cfg : GreedyRewriteConfig) (g : Region) : Worklist :=
  let ids := map op_id (walk g) in
  if use_top_down_traversal cfg then ids else rev ids.

(** Modelled from the spec: the worklist loop is missing from the sources;
    steps 2a to 2d of the driver: pop an operation, skip it if it has been
    erased, apply the first matching rule and re-queue what it touched,
    leave the operation alone if no rule matches.  Each pop spends one unit
    of [fuel]. *)
Fixpoint ProcessWorklist (fuel : nat) (fps : FrozenRewritePatternSet)
    (g : Region) (wl : Worklist) (changed : bool) (tr : Applied)
    : Outcome (Region * bool * Applied) :=
  match fuel with
  | O => NoReturn
  | S fuel' =>
      match wl with
      | [] => Ok (g, changed, tr)
      | id :: wl' =>
          match lookup_op g id with
          | None => ProcessWorklist fuel' fps g wl' changed tr
          | Some op =>
              match select_rule (candidates fps (op_name op)) g op with
              | None => ProcessWorklist fuel' fps g wl' changed tr
              | Some (x, acts) =>
                  let '(g', wl'') := foldl (apply_action id) (g, wl') acts in
                  ProcessWorklist fuel' fps g' wl'' true (tr ++ [(id, x.1)])
              end
          end
      end
  end.

Record RewriteResult : Type := mkRewriteResult {
  rewritten : Region;
  converged : bool;
  sweeps : nat;
  applied : Applied
}.

(** Modelled from the spec: the iteration loop is missing from the sources;
    "one full sweep over the initial operation set (plus everything it
    transitively re-queues) counts as one iteration; stop at max_iterations
    even if not converged", the driver ending earlier once a sweep fires no
    rule, and "expose whether convergence was reached".  [seeding] gives
    the worklist a sweep starts from. *)
Fixpoint Simplify (fuel : nat) (fps : FrozenRewritePatternSet)
    (seeding : Region -> Worklist) (remaining done : nat) (g : Region)
    (tr : Applied) : Outcome RewriteResult :=
  match remaining with
  | O => Ok (mkRewriteResult g false done tr)
  | S remaining' =>
      '(g', changed, tr') ← ProcessWorklist fuel fps g (seeding g) false tr;
      if changed : bool
      then Simplify fuel fps seeding remaining' (S done) g' tr'
      else Ok (mkRewriteResult g' true (S done) tr')
  end.

(** Modelled from the spec: the entry point [ApplyPatternsGreedily] is
    missing from the sources; its input is "a region root, a frozen pattern
    set, a configuration", and the iteration counter starts at zero. *)
Definition ApplyPatternsGreedily (fuel : nat) (r : Region)
    (fps : FrozenRewritePatternSet) (cfg : GreedyRewriteConfig)
    : Outcome RewriteResult :=
  Simplify fuel fps (seed cfg) (max_iterations cfg) 0 r [].

(** ** [class PatternRewritePass : public Pass] *)

Record PatternRewritePass : Type := mkPatternRewritePass {
  base : Pass;
  InitializePatterns : IrContext -> RewritePatternSet;   (* pure virtual *)
  patterns_ : FrozenRewritePatternSet
}.

Definition PatternRewritePass_new (name : string) (opt_level : Z)
    (dependents : list string)
    (init : IrContext -> RewritePatternSet) : PatternRewritePass :=
  {| base := Pass_new name opt_level dependents;
     InitializePatterns := init;
     patterns_ := FrozenRewritePatternSet_default |}.

Definition set_patterns (p : PatternRewritePass)
    (fps : FrozenRewritePatternSet) : PatternRewritePass :=
  {| base := base p;
     InitializePatterns := InitializePatterns p;
     patterns_ := fps |}.

Definition set_base (p : PatternRewritePass) (b : Pass)
    : PatternRewritePass :=
  {| base := b;
     InitializePatterns := InitializePatterns p;
     patterns_ := patterns_ p |}.

(** The enforce message of [Initialize], with [%s] replaced by the pass
    name; adjacent literals are glued together as the compiler does. *)
Definition no_patterns_message (pass_name : string) : string :=
  "Pass creation failed."
  +:+ "When using PatternRewritePass to create a Pass, the number of "
  +:+ "customized Patterns is required to be greater than zero."
  +:+ "Suggested fix: Check whether Pattern is added to the "
  +:+ "InitializePatterns() function of class [" +:+ pass_name +:+ "]".

(** [bool Initialize(IrContext* context) final] *)
Definition PatternRewritePass_Initialize (p : PatternRewritePass)
    (context : IrContext) : Outcome (bool * PatternRewritePass) :=
  let ps := InitializePatterns p context in
  _ ← IR_ENFORCE (Bool.eqb (Empty ps) false)
                 (no_patterns_message (name (base p)));
  let p' := set_patterns p (FrozenRewritePatternSet_new ps) in
  Ok (true, p').

Section Run.

(** What a default-constructed [GreedyRewriteConfig] holds, and the driver
    entry point [ApplyPatternsGreedily]: both are declared in
    [pattern_rewrite_driver.h]. *)
Variable GreedyRewriteConfig_default : GreedyRewriteConfig.
Variable driver :
  Region -> FrozenRewritePatternSet -> GreedyRewriteConfig ->
  Outcome RewriteResult.

(** [void Run(Operation* op) override]: the driver works on the region
    in place, so the operation comes back with that region replaced. *)
Definition Run_with (p : PatternRewritePass) (op : Operation)
    : Outcome Operation :=
  let cfg := GreedyRewriteConfig_default in
  let cfg := set_use_top_down_traversal cfg true in
  let cfg := set_max_iterations cfg 10 in
  r ← region op 0;
  res ← driver r (patterns_ p) cfg;
  Ok (set_regions op (<[0 := rewritten res]> (op_regions op))).

End Run.

(** Modelled from the spec: the values of a default-constructed
    [GreedyRewriteConfig] are missing from the sources; [Run] overwrites
    both fields, so they are never observed. *)
Definition GreedyRewriteConfig_default : GreedyRewriteConfig :=
  {| use_top_down_traversal := false; max_iterations := 0 |}.

Definition PatternRewritePass_Run (fuel : nat) (p : PatternRewritePass)
    (op : Operation) : Outcome (PatternRewritePass * Operation) :=
  op' ← Run_with GreedyRewriteConfig_default (ApplyPatternsGreedily fuel) p op;
  Ok (p, op').

(** ** Virtual dispatch *)

(** The virtual interface of [Pass]: what the manager, a friend of the
    class, calls on any pass. [Run] takes the step budget of the model. *)
Class PassClass (T : Type) : Type := {
  as_Pass : T -> Pass;
  with_Pass : T -> Pass -> T;
  Run : nat -> T -> Operation -> Outcome (T * Operation);
  CanApplyOn : T -> Operation -> bool;
  Initialize : T -> IrContext -> Outcome (bool * T)
}.

#[global] Instance PatternRewritePass_class : PassClass PatternRewritePass := {
  as_Pass := base;
  with_Pass := set_base;
  Run := PatternRewritePass_Run;
  CanApplyOn p := Pass_CanApplyOn (base p);
  Initialize := PatternRewritePass_Initialize
}.

(** A pass written directly against [Pass]: it supplies [Run] and keeps the
    inherited [CanApplyOn] and [Initialize]. *)
Record CustomPass : Type := mkCustomPass {
  custom_base : Pass;
  custom_run : Pass -> Operation -> Outcome (Pass * Operation)
}.

#[global] Instance CustomPass_class : PassClass CustomPass := {
  as_Pass := custom_base;
  with_Pass p b := mkCustomPass b (custom_run p);
  Run _ p op :=
    '(b, op') ← custom_run p (custom_base p) op;
    Ok (mkCustomPass b (custom_run p), op');
  CanApplyOn p := Pass_CanApplyOn (custom_base p);
  Initialize p ctx :=
    '(ok, b) ← Pass_Initialize (custom_base p) ctx;
    Ok (ok, mkCustomPass b (custom_run p))
}.

Record AnyPass : Type := pack {
  pass_type : Type;
  pass_class : PassClass pass_type;
  pass_obj : pass_type
}.

Arguments pack {pass_type pass_class} pass_obj.

Definition any_info (P : AnyPass) : detail.PassInfo :=
  pass_info (@as_Pass _ (pass_class P) (pass_obj P)).

(** ** The pass manager ([pass_manager.h], not part of the header) *)

Module PassManager.

(** Modelled from the spec: a call the manager makes on pass number [i] of
    its list, as a mock pass would record it; [EvCanApplyOn] keeps the
    answer it got. *)
Inductive Event : Type :=
  | EvCanApplyOn (i : nat) (answer : bool)
  | EvInitialize (i : nat)
  | EvRun (i : nat).

(** Modelled from the spec: how a manager run ends; a configuration error
    or a failed pass stops it, "no partial silent continuation". *)
Inductive Result : Type :=
  | Completed (op : Operation) (am : AnalysisManager)
  | Rejected (what : string)          (* configuration error *)
  | Raised (e : Exception)            (* an enforce of a pass *)
  | PassFailed (pass_name : string) (op : Operation)
  | Hung.

Inductive Step : Type :=
  | Continue (op : Operation) (am : AnalysisManager)
  | Stop (r : Result).

(** A value together with the calls made on passes to get it, in order. *)
Definition Logged (A : Type) : Type := list Event * A.

Definition finish {A : Type} (a : A) : Logged A := ([], a).

Definition and_then {A B : Type} (m : Logged A) (k : A -> Logged B)
    : Logged B :=
  let '(evs, b) := k m.2 in (m.1 ++ evs, b).

Section Dispatch.

Context {T : Type} `{PassClass T}.

(** The three calls the manager makes on a pass.  A call is logged by being
    made: there is no other way into the virtuals of a pass from the
    manager. *)
Definition call_CanApplyOn (i : nat) (p : T) (op : Operation)
    : Logged bool :=
  let answer := CanApplyOn p op in ([EvCanApplyOn i answer], answer).

Definition call_Initialize (i : nat) (p : T) (context : IrContext)
    : Logged (Outcome (bool * T)) :=
  ([EvInitialize i], Initialize p context).

Definition call_Run (fuel : nat) (i : nat) (p : T) (op : Operation)
    : Logged (Outcome (T * Operation)) :=
  ([EvRun i], Run fuel p op).

(** Modelled from the spec: the per-pass protocol is missing from the
    sources; "check CanApplyOn, call Initialize once, construct a fresh
    PassExecutionState, call Run, inspect pass_failed -- if true, abort the
    remaining sequence and report which pass failed; otherwise take
    preserved_analyses and apply it to the shared AnalysisManager".  A
    failed [CanApplyOn] and a false [Initialize] are configuration
    errors; an exception of a pass ends the run. *)
Definition run_pass (fuel : nat) (context : IrContext) (i : nat) (p : T)
    (op : Operation) (am : AnalysisManager) : Logged Step :=
  and_then (call_CanApplyOn i p op) (fun answer =>
  if negb answer
  then finish (Stop (Rejected "pass cannot apply on op"))
  else
    and_then (call_Initialize i p context) (fun initialized =>
    match initialized with
    | Throw e => finish (Stop (Raised e))
    | NoReturn => finish (Stop Hung)
    | Ok (false, _) => finish (Stop (Rejected "pass initialization failed"))
    | Ok (true, p1) =>
        let st := detail.PassExecutionState_new op am in
        let p2 := with_Pass p1 (set_pass_state (as_Pass p1) (Some st)) in
        and_then (call_Run fuel i p2 op) (fun ran =>
        finish
          match ran with
          | Throw e => Stop (Raised e)
          | NoReturn => Stop Hung
          | Ok (p3, op') =>
              match pass_state (as_Pass p3) with
              | Ok st' =>
                  if detail.pass_failed st'
                  then Stop (PassFailed (name (as_Pass p3)) op')
                  else Continue op'
                         (invalidate_all_except
                            (detail.preserved_analyses st') (detail.am st'))
              | Throw e => Stop (Raised e)
              | NoReturn => Stop Hung
              end
          end)
    end)).

End Dispatch.

Definition run_any (fuel : nat) (context : IrContext) (i : nat)
    (P : AnyPass) : Operation -> AnalysisManager -> Logged Step :=
  @run_pass _ (pass_class P) fuel context i (pass_obj P).

(** Modelled from the spec: the manager's loop is missing from the sources;
    the passes run "strictly sequentially", each on the graph the previous
    one left. *)
Fixpoint run_passes (fuel : nat) (context : IrContext) (i : nat)
    (passes : list AnyPass) (op : Operation) (am : AnalysisManager)
    : Logged Result :=
  match passes with
  | [] => finish (Completed op am)
  | P :: rest =>
      and_then (run_any fuel context i P op am) (fun step =>
      match step with
      | Stop r => finish r
      | Continue op' am' => run_passes fuel context (S i) rest op' am'
      end)
  end.

(** Modelled from the spec: the manager's entry point is missing from the
    sources.  The check of [dependents] that the header announces for the
    manager as still to do is not part of it. *)
Definition Run (fuel : nat) (context : IrContext) (passes : list AnyPass)
    (op : Operation) (am : AnalysisManager) : Logged Result :=
  run_passes fuel context 0 passes op am.

End PassManager.


(** ** Calls of the pass interface *)

(** The members of [Pass] and [PatternRewritePass] that pass.h defines, as
    calls on a pattern-rewrite pass object. *)
Inductive InterfaceCall : Type :=
  | call_name
  | call_pass_info
  | call_CanApplyOn (op : Operation)
  | call_Pass_Initialize (context : IrContext)
  | call_analysis_manager
  | call_pass_state
  | call_SignalPassFailure
  | call_Initialize (context : IrContext)
  | call_Run (fuel : nat) (op : Operation).

(** The pass object after a call; a call that throws or does not return
    leaves the object as it was. *)
Definition after_call (p : PatternRewritePass) (c : InterfaceCall)
    : PatternRewritePass :=
  match c with
  | call_name | call_pass_info | call_CanApplyOn _
  | call_analysis_manager | call_pass_state => p
  | call_Pass_Initialize context =>
      match Pass_Initialize (base p) context with
      | Ok (_, b) => set_base p b
      | _ => p
      end
  | call_SignalPassFailure =>
      match SignalPassFailure (base p) with
      | Ok b => set_base p b
      | _ => p
      end
  | call_Initialize context =>
      match PatternRewritePass_Initialize p context with
      | Ok (_, p') => p'
      | _ => p
      end
  | call_Run fuel op =>
      match PatternRewritePass_Run fuel p op with
      | Ok (p', _) => p'
      | _ => p
      end
  end.

Definition failed (p : PatternRewritePass) : Prop :=
  ∃ st, pass_state (base p) = Ok st ∧ detail.pass_failed st = true.

(** ** Sample graphs, rules and passes *)

Module Samples.

Definition const_op (id : OpId) (z : Z) : Operation :=
  mkOperation id "constant" z [] [id] [].

Definition add_op (id : OpId) (a b : Value) : Operation :=
  mkOperation id "add" 0 [a; b] [id] [].

Definition fresh (g : Region) : OpId :=
  S (foldr Nat.max 0%nat (map op_id (walk g))).

Definition const_of (g : Region) (v : Value) : option Z :=
  match lookup_op g v with
  | Some o => if String.eqb (op_name o) "constant" then Some (op_attr o)
              else None
  | None => None
  end.

(** Folds an addition of two constants into one constant. *)
Definition fold_add : RewritePattern :=
  mkRewritePattern "add" 1 (fun g op =>
    match op_operands op with
    | [a; b] =>
        match const_of g a, const_of g b with
        | Some x, Some y =>
            let n := fresh g in
            Some [CreateOp (const_op n (x + y));
                  ReplaceAllUsesWith (op_id op) n;
                  EraseOp (op_id op)]
        | _, _ => None
        end
    | _ => None
    end).

(** Erases operations of kind "dead". *)
Definition erase_dead : RewritePattern :=
  mkRewritePattern "dead" 1 (fun _ op => Some [EraseOp (op_id op)]).

(** [add(add(1, 2), 3)] *)
Definition sum_region : Region :=
  [const_op 1 1; const_op 2 2; add_op 3 1 2; const_op 4 3; add_op 5 3 4].

(** An operation with two regions. *)
Definition two_region_op : Operation :=
  mkOperation 0 "builtin.module" 0 [] [] [sum_region; sum_region].

Definition top_down_10 : GreedyRewriteConfig :=
  {| use_top_down_traversal := true; max_iterations := 10 |}.

Definition context : IrContext := mkIrContext 0.

Definition empty_am : AnalysisManager := mkAnalysisManager ∅.

Definition fold_pass : PatternRewritePass :=
  PatternRewritePass_new "constant_folding_pass" 1 [] (fun _ => [fold_add]).

(** A pass whose [InitializePatterns] registers nothing. *)
Definition empty_pass : PatternRewritePass :=
  PatternRewritePass_new "empty_pass" 1 [] (fun _ => []).

(** A pass that names a pass it depends on. *)
Definition dependent_pass : PatternRewritePass :=
  PatternRewritePass_new "dead_code_elimination_pass" 1
    ["constant_folding_pass"] (fun _ => [erase_dead]).

(** [fold_pass] after [Initialize]. *)
Definition ready_pass : PatternRewritePass :=
  set_patterns fold_pass (FrozenRewritePatternSet_new [fold_add]).

(** [fold_pass] inside a run: its execution state is installed. *)
Definition running_pass : PatternRewritePass :=
  set_base fold_pass
    (set_pass_state (base fold_pass)
       (Some (detail.PassExecutionState_new two_region_op empty_am))).





End Samples.

(** ** Reading the manager's event log *)

Definition event_index (ev : PassManager.Event) : nat :=
  match ev with
  | PassManager.EvCanApplyOn i _ => i
  | PassManager.EvInitialize i => i
  | PassManager.EvRun i => i
  end.

(** ** Order of the candidates *)

(** A candidate list in which every rule is preferred to the ones behind
    it. *)
Definition ordered (l : list Registered) : Prop :=
  StronglySorted (fun x y => prefers x y = true) l.

(** ** Writing through [pass_state()] *)

(** [pass_state().member = value]: [pass_state()] returns
    [detail::PassExecutionState&], a reference to the state inside the pass,
    and the members of the struct are public, so code of a pass can assign
    through it; [update] is the assignment.  [SignalPassFailure] is the one
    such assignment the header itself makes. *)
Definition assign_pass_state (p : Pass)
    (update : detail.PassExecutionState -> detail.PassExecutionState)
    : Outcome Pass :=
  st ← pass_state p;
  Ok (set_pass_state p (Some (update st))).

(** ** The dependents of a pass *)



(** ** [Run] on the live IR *)

(** [ApplyPatternsGreedily] takes [Region&]: what [Run] hands over is a
    reference to region [index] of [op] as it sits in the IR, from which
    the driver and its rules reach the rest of [op].  A driver is here a
    function of the whole operation and the index; it answers the operation
    as it has left it, and its report. *)
Definition LiveDriver : Type :=
  Operation -> nat -> FrozenRewritePatternSet -> GreedyRewriteConfig ->
  Outcome (Operation * bool).

Section RunLive.

Variable GreedyRewriteConfig_default : GreedyRewriteConfig.
Variable driver : LiveDriver.

(** [void Run(Operation* op) override], with the driver working through
    the reference. *)
Definition Run_live (p : PatternRewritePass) (op : Operation)
    : Outcome Operation :=
  let cfg := GreedyRewriteConfig_default in
  let cfg := set_use_top_down_traversal cfg true in
  let cfg := set_max_iterations cfg 10 in
  _ ← region op 0;
  '(op', _) ← driver op 0 (patterns_ p) cfg;
  Ok op'.

End RunLive.

(** A driver that keeps to the region it is handed. *)
Definition confined
    (driver : Region -> FrozenRewritePatternSet -> GreedyRewriteConfig ->
              Outcome RewriteResult) : LiveDriver :=
  fun op index fps cfg =>
    r ← region op index;
    res ← driver r fps cfg;
    Ok (set_regions op (<[index := rewritten res]> (op_regions op)),
        converged res).




(** ** The worklist discipline as a relation *)

(** Modelled from the spec: which rule is applied to an operation; "among
    matching rules, try in descending benefit order, breaking ties by
    registration order" and "apply the first rule whose match predicate
    succeeds".  Rule number [i] of the builder is the one applied to [op],
    with rewrite [acts], when it is of the kind of [op], matches, and every
    matching rule of that kind has a lower benefit or the same benefit and
    a registration that is not earlier. *)
Inductive chosen (ps : RewritePatternSet) (g : Region) (op : Operation)
    : nat -> list RewriteAction -> Prop :=
  | chosen_rule (i : nat) (p : RewritePattern) (acts : list RewriteAction) :
      ps !! i = Some p ->
      root_kind p = op_name op ->
      match_and_rewrite p g op = Some acts ->
      (∀ j q, ps !! j = Some q -> root_kind q = op_name op ->
              match_and_rewrite q g op ≠ None ->
              (benefit q < benefit p)%nat
              ∨ (benefit q = benefit p ∧ (i <= j)%nat)) ->
      chosen ps g op i acts.

(** No registered rule of the kind of [op] matches. *)
Definition unmatched (ps : RewritePatternSet) (g : Region) (op : Operation)
    : Prop :=
  ∀ j q, ps !! j = Some q -> root_kind q = op_name op ->
         match_and_rewrite q g op = None.

Definition DriverState : Type := Region * Worklist * bool * Applied.

(** Modelled from the spec: one turn of the worklist loop, steps 2a to 2d:
    a stale entry is skipped, an operation no rule matches is left as it
    is, and otherwise the chosen rule is applied and what it touched is
    re-queued. *)
Inductive pop (ps : RewritePatternSet) : DriverState -> DriverState -> Prop :=
  | pop_stale g id wl changed tr :
      lookup_op g id = None ->
      pop ps (g, id :: wl, changed, tr) (g, wl, changed, tr)
  | pop_unmatched g id wl changed tr op :
      lookup_op g id = Some op ->
      unmatched ps g op ->
      pop ps (g, id :: wl, changed, tr) (g, wl, changed, tr)
  | pop_rewrite g id wl changed tr op i acts g' wl' :
      lookup_op g id = Some op ->
      chosen ps g op i acts ->
      foldl (apply_action id) (g, wl) acts = (g', wl') ->
      pop ps (g, id :: wl, changed, tr) (g', wl', true, tr ++ [(id, i)]).

(** A sweep: turns of the loop until the worklist is empty. *)
Inductive sweep (ps : RewritePatternSet)
    : DriverState -> Region * bool * Applied -> Prop :=
  | sweep_empty g changed tr :
      sweep ps (g, [], changed, tr) (g, changed, tr)
  | sweep_pop s s' out :
      pop ps s s' -> sweep ps s' out -> sweep ps s out.

(** Modelled from the spec: the iterations of the driver: it stops at the
    bound, or after a sweep that fired no rule, and goes on otherwise. *)
Inductive iterations (ps : RewritePatternSet) (seeding : Region -> Worklist)
    : nat -> nat -> Region -> Applied -> RewriteResult -> Prop :=
  | iterations_bound done g tr :
      iterations ps seeding 0 done g tr (mkRewriteResult g false done tr)
  | iterations_converged remaining done g tr g' tr' :
      sweep ps (g, seeding g, false, tr) (g', false, tr') ->
      iterations ps seeding (S remaining) done g tr
        (mkRewriteResult g' true (S done) tr')
  | iterations_again remaining done g tr g' tr' res :
      sweep ps (g, seeding g, false, tr) (g', true, tr') ->
      iterations ps seeding remaining (S done) g' tr' res ->
      iterations ps seeding (S remaining) done g tr res.

(** * The enforce machinery of paddle/common/enforce.h *)

Module common.

(** An argument handed to [paddle::string::Sprintf]. *)
Inductive FormatArg : Type :=
  | arg_str (s : string)
  | arg_int (n : Z).

(** What enforce.h uses and only declares or includes: the error codes and
    the text of an [ErrorSummary] (errors.h), [Sprintf] (printf.h),
    [to_string] (to_string.h), and the three [TEST_API] functions whose
    bodies are elsewhere. *)
Class Externals : Type := {
  ErrorCode : Type;
  LEGACY : ErrorCode;
  ErrorSummary_to_string : ErrorCode -> string -> string;
  Sprintf : string -> list FormatArg -> string;
  to_string : Z -> string;
  GetCurrentTraceBackString : string;
  SimplifyErrorTypeFormat : string -> string
}.

Section enforce.

Context `{Externals}.

(** [common::ErrorSummary], as far as enforce.h uses it: built from a code
    and a message, read back with [code()] and [error_message()]. *)
Record ErrorSummary : Type := mkErrorSummary {
  summary_code : ErrorCode;
  error_message : string
}.

Definition endl : string := String "010"%char "".

(** [template <bool kCanToString> struct BinaryCompareMessageConverter]:
    [Convert] of the primary template ([true]) and of the [false]
    specialisation. *)
Definition Convert (kCanToString : bool) (expression : string) (value : Z)
    : string :=
  if kCanToString
  then expression +:+ ":" +:+ to_string value
  else expression.

(** [GetErrorSumaryString(what, file, line)]; [level] is what
    [GetCallStackLevel()] answers during the call. *)
Definition GetErrorSumaryString (level : Z) (what file : string) (line : Z)
    : string :=
  let sout := "" in
  let sout :=
    if (1 <? level)%Z
    then sout +:+ endl +:+ "----------------------" +:+ endl
              +:+ "Error Message " +:+ "Summary:" +:+ endl
              +:+ "----------------------" +:+ endl
    else sout in
  sout +:+ Sprintf "%s (at %s:%d)" [arg_str what; arg_str file; arg_int line]
       +:+ endl.

(** [GetTraceBackString(what, file, line)] *)
Definition GetTraceBackString (level : Z) (what file : string) (line : Z)
    : string :=
  if (1 <? level)%Z
  then GetCurrentTraceBackString +:+ GetErrorSumaryString level what file line
  else GetErrorSumaryString level what file line.

(** [struct EnforceNotMet : public std::exception] *)
Record EnforceNotMet : Type := mkEnforceNotMet {
  code_ : ErrorCode;
  err_str_ : string;
  simple_err_str_ : string
}.

(** [std::string::c_str()] read as the C string it points to: the
    characters in front of the first NUL. *)
Fixpoint c_str (s : string) : string :=
  match s with
  | EmptyString => EmptyString
  | String c rest =>
      if Ascii.eqb c "000"%char then EmptyString else String c (c_str rest)
  end.

(** A string without a NUL in it. *)
Fixpoint no_nul (s : string) : bool :=
  match s with
  | EmptyString => true
  | String c rest => negb (Ascii.eqb c "000"%char) && no_nul rest
  end.

(** [const char* what() const noexcept] *)
Definition what (level : Z) (e : EnforceNotMet) : string :=
  if (1 <? level)%Z then c_str (err_str_ e) else c_str (simple_err_str_ e).

Definition code (e : EnforceNotMet) : ErrorCode := code_ e.

Definition error_str (e : EnforceNotMet) : string := err_str_ e.

Definition simple_error_str (e : EnforceNotMet) : string := simple_err_str_ e.

(** [void set_error_str(std::string str)] *)
Definition set_error_str (level : Z) (e : EnforceNotMet) (str : string)
    : EnforceNotMet :=
  if (1 <? level)%Z
  then mkEnforceNotMet (code_ e) str (simple_err_str_ e)
  else mkEnforceNotMet (code_ e) (err_str_ e) str.

(** [EnforceNotMet(const std::string& str, const char* file, int line)];
    [code_] keeps its default member initialiser. *)
Definition EnforceNotMet_of_string (level : Z) (str file : string) (line : Z)
    : EnforceNotMet :=
  let err := GetTraceBackString level str file line in
  mkEnforceNotMet LEGACY err (SimplifyErrorTypeFormat err).

(** [EnforceNotMet(const common::ErrorSummary& error, const char* file,
    int line)] *)
Definition EnforceNotMet_of_summary (level : Z) (error : ErrorSummary)
    (file : string) (line : Z) : EnforceNotMet :=
  let err :=
    GetTraceBackString level
      (ErrorSummary_to_string (summary_code error) (error_message error))
      file line in
  mkEnforceNotMet (summary_code error) err (SimplifyErrorTypeFormat err).

(** What a [std::exception_ptr] may hold, as the handlers of the first
    constructor tell it apart. *)
Inductive Held : Type :=
  | held_EnforceNotMet (e : EnforceNotMet)
  | held_std_exception (what : string)
  | held_other.

(** [EnforceNotMet(std::exception_ptr e, const char* file, int line)]: the
    pointer is rethrown and caught as [EnforceNotMet&] or as
    [std::exception&]; anything else leaves the constructor as it is
    ([None]). *)
Definition EnforceNotMet_of_exception (level : Z) (e : Held) (file : string)
    (line : Z) : option EnforceNotMet :=
  match e with
  | held_EnforceNotMet e =>
      let err := GetTraceBackString level (what level e) file line in
      Some (mkEnforceNotMet (code e) err (SimplifyErrorTypeFormat err))
  | held_std_exception w =>
      let err := GetTraceBackString level w file line in
      Some (mkEnforceNotMet LEGACY err (SimplifyErrorTypeFormat err))
  | held_other => None
  end.

(** The comparison operators the enforce macros are instantiated with. *)
Inductive Comparison : Type := EQ | NE | GT | GE | LT | LE.

(** [#__CMP]: the operator as the preprocessor spells it. *)
Definition spelling (c : Comparison) : string :=
  match c with
  | EQ => "==" | NE => "!=" | GT => ">" | GE => ">=" | LT => "<" | LE => "<="
  end.

(** [(a) __CMP (b)] on two integers of one type. *)
Definition compare (c : Comparison) (a b : Z) : bool :=
  match c with
  | EQ => (a =? b)%Z
  | NE => negb (a =? b)%Z
  | GT => (b <? a)%Z
  | GE => (b <=? a)%Z
  | LT => (a <? b)%Z
  | LE => (a <=? b)%Z
  end.

(** What the operator says of two integers. *)
Definition holds (c : Comparison) (a b : Z) : Prop :=
  match c with
  | EQ => a = b
  | NE => a <> b
  | GT => (a > b)%Z
  | GE => (a >= b)%Z
  | LT => (a < b)%Z
  | LE => (a <= b)%Z
  end.

(** Where an enforce macro is used: the spelling of its two operands, file
    and line, whether both operand types can be streamed, and the call
    stack level at that moment. *)
Record Site : Type := mkSite {
  site_level : Z;
  site_file : string;
  site_line : Z;
  site_VAL1 : string;
  site_VAL2 : string;
  kCanToString : bool
}.

Inductive Enforced : Type :=
  | Passed
  | Thrown (e : EnforceNotMet).

(** The format of the hint: adjacent literals and the two spelled operators,
    glued by the compiler. *)
Definition hint_format (CMP INV_CMP : Comparison) : string :=
  "%s" +:+ endl +:+ "  [Hint: Expected %s " +:+ spelling CMP
  +:+ " %s, but received %s " +:+ spelling INV_CMP +:+ " %s.]".

(** [__COMMON_BINARY_COMPARE(__VAL1, __VAL2, __CMP, __INV_CMP, ...)] on two
    integer operands of one type, so that both casts to the common type are
    the identity; [summary] is [common::ErrorSummary(__VA_ARGS__)]. *)
Definition COMMON_BINARY_COMPARE (site : Site) (val1 val2 : Z)
    (CMP INV_CMP : Comparison) (summary : ErrorSummary) : Enforced :=
  let is_not_error := compare CMP val1 val2 in
  if negb is_not_error
  then
    let message :=
      Sprintf (hint_format CMP INV_CMP)
        [arg_str (error_message summary);
         arg_str (site_VAL1 site);
         arg_str (site_VAL2 site);
         arg_str (Convert (kCanToString site) (site_VAL1 site) val1);
         arg_str (Convert (kCanToString site) (site_VAL2 site) val2)] in
    Thrown (EnforceNotMet_of_summary (site_level site)
              (mkErrorSummary (summary_code summary) message)
              (site_file site) (site_line site))
  else Passed.

Definition COMMON_ENFORCE_EQ (site : Site) (val0 val1 : Z)
    (summary : ErrorSummary) : Enforced :=
  COMMON_BINARY_COMPARE site val0 val1 EQ NE summary.

Definition COMMON_ENFORCE_NE (site : Site) (val0 val1 : Z)
    (summary : ErrorSummary) : Enforced :=
  COMMON_BINARY_COMPARE site val0 val1 NE EQ summary.

Definition COMMON_ENFORCE_GT (site : Site) (val0 val1 : Z)
    (summary : ErrorSummary) : Enforced :=
  COMMON_BINARY_COMPARE site val0 val1 GT LE summary.

Definition COMMON_ENFORCE_GE (site : Site) (val0 val1 : Z)
    (summary : ErrorSummary) : Enforced :=
  COMMON_BINARY_COMPARE site val0 val1 GE LT summary.

Definition COMMON_ENFORCE_LT (site : Site) (val0 val1 : Z)
    (summary : ErrorSummary) : Enforced :=
  COMMON_BINARY_COMPARE site val0 val1 LT GE summary.

Definition COMMON_ENFORCE_LE (site : Site) (val0 val1 : Z)
    (summary : ErrorSummary) : Enforced :=
  COMMON_BINARY_COMPARE site val0 val1 LE GT summary.

(** The six macros, by the operator they enforce. *)
Definition COMMON_ENFORCE (c : Comparison)
    : Site -> Z -> Z -> ErrorSummary -> Enforced :=
  match c with
  | EQ => COMMON_ENFORCE_EQ
  | NE => COMMON_ENFORCE_NE
  | GT => COMMON_ENFORCE_GT
  | GE => COMMON_ENFORCE_GE
  | LT => COMMON_ENFORCE_LT
  | LE => COMMON_ENFORCE_LE
  end.

(** An [EnforceNotMet] as one of the three constructors leaves it. *)
Inductive constructed : EnforceNotMet -> Prop :=
  | constructed_of_string level str file line :
      constructed (EnforceNotMet_of_string level str file line)
  | constructed_of_summary level error file line :
      constructed (EnforceNotMet_of_summary level error file line)
  | constructed_of_exception level held file line e :
      EnforceNotMet_of_exception level held file line = Some e ->
      constructed e.

(** Wrapping an error [n] times over, as nested rethrows do. *)
Fixpoint rewrap (n : nat) (level : Z) (file : string) (line : Z)
    (e : EnforceNotMet) : option EnforceNotMet :=
  match n with
  | O => Some e
  | S n' =>
      match EnforceNotMet_of_exception level (held_EnforceNotMet e) file line
      with
      | Some e' => rewrap n' level file line e'
      | None => None
      end
  end.

End enforce.

End common.

(** A driver result with its convergence report overwritten. *)
Definition forget_report (res : RewriteResult) : RewriteResult :=
  mkRewriteResult (rewritten res) false 0 [].

(** A stand-in for the functions enforce.h leaves to other files, to run
    the definitions on. *)
Module SampleExternals.

Definition render (a : common.FormatArg) : string :=
  match a with
  | common.arg_str s => s
  | common.arg_int n => pretty n
  end.

#[global] Instance externals : common.Externals := {
  common.ErrorCode := nat;
  common.LEGACY := 0%nat;
  common.ErrorSummary_to_string c m := "Error: " +:+ m;
  common.Sprintf fmt args := fmt +:+ String.concat "|" (map render args);
  common.to_string n := pretty n;
  common.GetCurrentTraceBackString := "C++ Traceback";
  common.SimplifyErrorTypeFormat s := "(simple) " +:+ s
}.

Definition site : common.Site :=
  common.mkSite 0 "pass.cc" 42 "a" "b" true.

Definition summary : common.ErrorSummary :=
  common.mkErrorSummary 3%nat "sizes differ".

End SampleExternals.

(** * Properties *)

(** ** Execution state *)

(** C10: a freshly constructed [PassExecutionState] has [pass_failed] false,
    holds exactly the [ir] and [am] it was given, and its
    [preserved_analyses] is the default, empty set. *)
Theorem PassExecutionState_new_fresh (ir0 : Operation) (am0 : AnalysisManager) :
  let st := detail.PassExecutionState_new ir0 am0 in
  detail.pass_failed st = false
  ∧ detail.ir st = ir0
  ∧ detail.am st = am0
  ∧ detail.preserved_analyses st = PreservedAnalyses_default
  ∧ ∀ k : TypeId, k ∉ detail.preserved_analyses st.
Proof.
  cbn. repeat split; try reflexivity.
  intros k. unfold PreservedAnalyses_default. apply not_elem_of_empty.
Qed.

Lemma pass_state_Some (p : Pass) (st : detail.PassExecutionState) :
  pass_state_ p = Some st -> pass_state p = Ok st.
Proof. unfold pass_state. intros ->. reflexivity. Qed.

Lemma pass_state_None (p : Pass) :
  pass_state_ p = None ->
  pass_state p = Throw (EnforceNotMet "pass state has no value").
Proof. unfold pass_state. intros ->. reflexivity. Qed.

Lemma pass_state_inv (p : Pass) (st : detail.PassExecutionState) :
  pass_state p = Ok st -> pass_state_ p = Some st.
Proof.
  unfold pass_state. destruct (pass_state_ p) as [st'|]; cbn.
  - congruence.
  - discriminate.
Qed.

(** C8: outside a run, when [pass_state_] is empty, each of [pass_state()],
    [SignalPassFailure()] and [analysis_manager()] raises the enforce error
    "pass state has no value". *)
Theorem no_state_raises (p : Pass) :
  pass_state_ p = None ->
  pass_state p = Throw (EnforceNotMet "pass state has no value")
  ∧ SignalPassFailure p = Throw (EnforceNotMet "pass state has no value")
  ∧ analysis_manager p = Throw (EnforceNotMet "pass state has no value").
Proof.
  intros Hnone. unfold SignalPassFailure, analysis_manager.
  rewrite (pass_state_None p Hnone). repeat split.
Qed.

Lemma no_state_raises_witness :
  let p := Pass_new "dead_code_elimination_pass" 1 [] in
  pass_state p = Throw (EnforceNotMet "pass state has no value")
  ∧ SignalPassFailure p = Throw (EnforceNotMet "pass state has no value")
  ∧ analysis_manager p = Throw (EnforceNotMet "pass state has no value").
Proof.
  apply (no_state_raises (Pass_new "dead_code_elimination_pass" 1 [])).
  reflexivity.
Defined.

(** ** The failure flag *)

Lemma failed_after_call (p : PatternRewritePass) (c : InterfaceCall) :
  failed p -> failed (after_call p c).
Proof.
  intros (st & Hst & Hflag).
  destruct c; cbn; try (exists st; split; assumption).
  - unfold SignalPassFailure. rewrite Hst. cbn.
    eexists. split; [apply pass_state_Some; reflexivity | reflexivity].
  - unfold PatternRewritePass_Initialize.
    destruct (Empty (InitializePatterns p context)); cbn;
      exists st; split; assumption.
  - unfold PatternRewritePass_Run.
    destruct (Run_with _ _ p op); cbn; exists st; split; assumption.
Qed.

(** C3, as the header has it: once [SignalPassFailure] has been called on a
    pass in a run, the flag reads true, and it still reads true after any
    further sequence of calls of the members the header defines,
    [SignalPassFailure] and reads of the state included: none of them
    writes false.  What code of a pass assigns through the reference that
    [pass_state()] returns is not among them. *)
Theorem SignalPassFailure_sticky (p : PatternRewritePass) (b : Pass)
    (calls : list InterfaceCall) :
  SignalPassFailure (base p) = Ok b ->
  failed (set_base p b)
  ∧ failed (foldl after_call (set_base p b) calls)
  ∧ ∃ b', SignalPassFailure (base (foldl after_call (set_base p b) calls))
          = Ok b'
          ∧ failed (set_base (foldl after_call (set_base p b) calls) b').
Proof.
  intros Hsig.
  assert (Hfailed : failed (set_base p b)).
  { unfold SignalPassFailure in Hsig.
    destruct (pass_state (base p)) as [st| |]; cbn in Hsig; try discriminate.
    injection Hsig as <-. eexists. split; [apply pass_state_Some|]; reflexivity. }
  assert (Hlater : ∀ q, failed q -> failed (foldl after_call q calls)).
  { induction calls as [|c calls IH]; intros q Hq; cbn; [assumption|].
    apply IH, failed_after_call, Hq. }
  split; [assumption|]. split; [apply Hlater, Hfailed|].
  destruct (Hlater _ Hfailed) as (st & Hst & Hflag).
  unfold SignalPassFailure. rewrite Hst. cbn. eexists. split; [reflexivity|].
  eexists. split; [apply pass_state_Some; reflexivity | reflexivity].
Qed.

Lemma SignalPassFailure_sticky_witness :
  let p := Samples.running_pass in
  let calls := [call_pass_state; call_SignalPassFailure;
                call_Initialize Samples.context;
                call_Run 100 Samples.two_region_op; call_pass_state] in
  ∃ b, SignalPassFailure (base p) = Ok b
       ∧ failed (foldl after_call (set_base p b) calls).
Proof.
  eexists. split; [reflexivity|].
  eapply (SignalPassFailure_sticky Samples.running_pass). reflexivity.
Defined.


(** C3 does not hold as stated: [pass_state()] returns a reference to the
    state with its public [pass_failed], so after [SignalPassFailure] the
    code of a pass can assign false through it, and the flag then reads
    false. *)
Lemma pass_failed_reset_through_reference :
  ∃ b b' st,
    SignalPassFailure (base Samples.running_pass) = Ok b
    ∧ assign_pass_state b (fun st => detail.set_pass_failed st false) = Ok b'
    ∧ pass_state b' = Ok st
    ∧ detail.pass_failed st = false.
Proof. do 3 eexists. repeat split. Qed.

(** [SignalPassFailure] is the assignment of true through that reference. *)
Lemma SignalPassFailure_is_assignment (p : Pass) :
  SignalPassFailure p
  = assign_pass_state p (fun st => detail.set_pass_failed st true).
Proof. reflexivity. Qed.

(** ** [PatternRewritePass::Run] *)

(** C4: whatever operation [Run] is given, the only call it makes of the
    greedy driver is on region 0 of the operation, with the pass's frozen
    patterns and with the configuration whose traversal is top-down and
    whose [max_iterations] is 10; on an operation that has a region 0 the
    call is made.  This holds for every driver and whatever a default
    configuration holds. *)
Theorem Run_fixed_configuration (dflt : GreedyRewriteConfig)
    (driver : Region -> FrozenRewritePatternSet -> GreedyRewriteConfig ->
              Outcome RewriteResult)
    (p : PatternRewritePass) (op : Operation) :
  let cfg := {| use_top_down_traversal := true; max_iterations := 10 |} in
  Run_with dflt driver p op
  = (r ← region op 0;
     res ← driver r (patterns_ p) cfg;
     Ok (set_regions op (<[0%nat := rewritten res]> (op_regions op))))
  ∧ ∀ r : Region,
      op_regions op !! 0%nat = Some r ->
      Run_with dflt driver p op
      = (res ← driver r (patterns_ p) cfg;
         Ok (set_regions op (<[0%nat := rewritten res]> (op_regions op)))).
Proof.
  cbn zeta. split; [reflexivity|].
  intros r Hr. unfold Run_with, region. rewrite Hr. reflexivity.
Qed.

Lemma Run_fixed_configuration_witness :
  Run_with GreedyRewriteConfig_default (ApplyPatternsGreedily 100)
    Samples.fold_pass Samples.two_region_op
  = (res ← ApplyPatternsGreedily 100 Samples.sum_region
             (patterns_ Samples.fold_pass)
             {| use_top_down_traversal := true; max_iterations := 10 |};
     Ok (set_regions Samples.two_region_op
           (<[0%nat := rewritten res]> (op_regions Samples.two_region_op)))).
Proof.
  apply (Run_fixed_configuration GreedyRewriteConfig_default
           (ApplyPatternsGreedily 100) Samples.fold_pass
           Samples.two_region_op).
  reflexivity.
Defined.

(** ** [Run] and the other regions *)


(** [Run_with] is [Run_live] for a driver that keeps to its region. *)
Lemma Run_live_confined (dflt : GreedyRewriteConfig)
    (driver : Region -> FrozenRewritePatternSet -> GreedyRewriteConfig ->
              Outcome RewriteResult)
    (p : PatternRewritePass) (op : Operation) :
  Run_live dflt (confined driver) p op = Run_with dflt driver p op.
Proof.
  unfold Run_live, Run_with, confined, region.
  destruct (op_regions op !! 0%nat) as [r|]; cbn; [|reflexivity].
  destruct (driver r (patterns_ p) _) as [res| |]; reflexivity.
Qed.




(** ** The pass manager's protocol *)

Section ManagerFacts.

Import PassManager.

Variable fuel : nat.
Variable context : IrContext.

Lemma run_any_index (i : nat) (P : AnyPass) (op : Operation)
    (am : AnalysisManager) (ev : Event) :
  ev ∈ (run_any fuel context i P op am).1 -> event_index ev = i.
Proof.
  unfold run_any, run_pass, and_then, call_CanApplyOn, call_Initialize,
    call_Run, finish. cbn.
  destruct (negb _); [|destruct (Initialize _ _) as [[[] ?]| |]]; cbn;
    rewrite ?elem_of_cons, elem_of_nil; intuition (subst; reflexivity).
Qed.

Lemma run_passes_index (passes : list AnyPass) :
  ∀ (i : nat) (op : Operation) (am : AnalysisManager) (ev : Event),
    ev ∈ (run_passes fuel context i passes op am).1 ->
    (i <= event_index ev)%nat.
Proof.
  induction passes as [|P rest IH]; intros i op am ev; cbn.
  - intros Hin. apply elem_of_nil in Hin as [].
  - unfold and_then.
    destruct (run_any fuel context i P op am) as [evs [op' am'|r]] eqn:HP; cbn.
    + destruct (run_passes fuel context (S i) rest op' am') as [evs' r]
        eqn:Hrest.
      cbn. intros [Hin|Hin]%elem_of_app.
      * assert (event_index ev = i); [|lia].
        apply (run_any_index i P op am). rewrite HP. exact Hin.
      * specialize (IH (S i) op' am' ev). rewrite Hrest in IH.
        specialize (IH Hin). lia.
    + rewrite app_nil_r. intros Hin. assert (event_index ev = i); [|lia].
      apply (run_any_index i P op am). rewrite HP. exact Hin.
Qed.

(** A pass whose own protocol never reaches [Run] has no [Run] event in
    the manager's log, wherever it stands in the list. *)
Lemma run_passes_never_run (passes : list AnyPass) :
  ∀ (i j : nat) (P : AnyPass),
    passes !! j = Some P ->
    (∀ op am, EvRun (i + j) ∉ (run_any fuel context (i + j) P op am).1) ->
    ∀ op am, EvRun (i + j) ∉ (run_passes fuel context i passes op am).1.
Proof.
  induction passes as [|P0 rest IH]; intros i j P Hj HP op am;
    [discriminate|].
  cbn. unfold and_then.
  destruct (run_any fuel context i P0 op am) as [evs st] eqn:H0. cbn.
  assert (Hevs : EvRun (i + j) ∉ evs).
  { destruct j as [|j].
    - cbn in Hj. injection Hj as ->. specialize (HP op am).
      rewrite Nat.add_0_r in *. rewrite H0 in HP. exact HP.
    - intros Hin. assert (event_index (EvRun (i + S j)) = i); [|cbn in *; lia].
      apply (run_any_index i P0 op am). rewrite H0. exact Hin. }
  destruct st as [op' am'|r]; [|cbn; rewrite app_nil_r; exact Hevs].
  destruct (run_passes fuel context (S i) rest op' am') as [evs' r] eqn:Hrest.
  cbn. intros [Hin|Hin]%elem_of_app; [exact (Hevs Hin)|].
  destruct j as [|j].
  - pose proof (run_passes_index rest (S i) op' am' (EvRun (i + 0))) as Hle.
    rewrite Hrest in Hle. specialize (Hle Hin). cbn in Hle. lia.
  - cbn in Hj. specialize (IH (S i) j P Hj).
    replace (S i + j)%nat with (i + S j)%nat in IH by lia.
    specialize (IH HP op' am'). rewrite Hrest in IH. exact (IH Hin).
Qed.

End ManagerFacts.

(** ** The frozen pattern set *)

Lemma prefers_refl (x : Registered) : prefers x x = true.
Proof.
  unfold prefers. rewrite Nat.eqb_refl, Nat.leb_refl.
  apply orb_true_r.
Qed.

Lemma prefers_spec (x y : Registered) :
  prefers x y = true <->
  (benefit y.2 < benefit x.2)%nat
  ∨ (benefit y.2 = benefit x.2 ∧ (x.1 <= y.1)%nat).
Proof.
  unfold prefers.
  rewrite !orb_true_iff, !andb_true_iff, !Nat.ltb_lt, !Nat.eqb_eq, !Nat.leb_le.
  lia.
Qed.

Lemma prefers_total (x y : Registered) :
  prefers x y = false -> prefers y x = true.
Proof.
  intros Hxy. apply prefers_spec.
  assert (Hnot : ¬ ((benefit y.2 < benefit x.2)%nat
                    ∨ (benefit y.2 = benefit x.2 ∧ (x.1 <= y.1)%nat))).
  { rewrite <- prefers_spec. congruence. }
  lia.
Qed.

Lemma prefers_trans (x y z : Registered) :
  prefers x y = true -> prefers y z = true -> prefers x z = true.
Proof.
  unfold prefers.
  rewrite !orb_true_iff, !andb_true_iff, !Nat.ltb_lt, !Nat.eqb_eq, !Nat.leb_le.
  lia.
Qed.

Lemma elem_of_insert_by_benefit (x y : Registered) (l : list Registered) :
  y ∈ insert_by_benefit x l <-> y = x ∨ y ∈ l.
Proof.
  induction l as [|z l IH]; cbn.
  - rewrite list_elem_of_singleton, elem_of_nil. tauto.
  - destruct (prefers x z); rewrite !elem_of_cons; [tauto|].
    rewrite IH. tauto.
Qed.

Lemma insert_by_benefit_ordered (x : Registered) (l : list Registered) :
  ordered l -> ordered (insert_by_benefit x l).
Proof.
  unfold ordered. induction 1 as [|z l Hsorted IH Hz]; cbn.
  - constructor; constructor.
  - destruct (prefers x z) eqn:Hxz.
    + constructor; [constructor; assumption|].
      constructor; [exact Hxz|].
      eapply Forall_impl; [exact Hz|].
      intros w Hw. cbn in Hw. eapply prefers_trans; eassumption.
    + constructor; [exact IH|].
      apply Forall_forall. intros w Hw.
      apply elem_of_insert_by_benefit in Hw as [->|Hw].
      * apply prefers_total, Hxz.
      * rewrite Forall_forall in Hz. apply Hz, Hw.
Qed.

Lemma elem_of_frozen (l : list Registered) (kind : string) (y : Registered) :
  y ∈ candidates (mkFrozen (foldr add_rule ∅ l)) kind
  <-> y ∈ l ∧ root_kind y.2 = kind.
Proof.
  unfold candidates. cbn. induction l as [|x l IH]; cbn.
  - rewrite lookup_empty. cbn. rewrite !elem_of_nil. tauto.
  - unfold add_rule at 1. rewrite lookup_insert.
    destruct (decide (root_kind x.2 = kind)) as [Hk|Hk].
    + cbn. rewrite elem_of_insert_by_benefit, elem_of_cons, Hk, IH.
      split; [intros [->|[? ?]]; auto|intros [[->|?] ?]; auto].
    + rewrite IH, elem_of_cons.
      split; [intros [? ?]; auto|intros [[->|?] ?]; [contradiction|auto]].
Qed.

Lemma frozen_ordered (l : list Registered) (kind : string) :
  ordered (candidates (mkFrozen (foldr add_rule ∅ l)) kind).
Proof.
  unfold candidates. cbn. induction l as [|x l IH]; cbn.
  - rewrite lookup_empty. constructor.
  - unfold add_rule at 1. rewrite lookup_insert.
    destruct (decide (root_kind x.2 = kind)) as [Hk|Hk]; [|exact IH].
    cbn. rewrite Hk. apply insert_by_benefit_ordered, IH.
Qed.

Lemma elem_of_registered (ps : RewritePatternSet) (y : Registered) :
  y ∈ registered ps <-> ps !! y.1 = Some y.2.
Proof.
  unfold registered. rewrite elem_of_lookup_imap. split.
  - intros (i & p & -> & Hi). exact Hi.
  - intros Hy. exists y.1, y.2. split; [destruct y; reflexivity|exact Hy].
Qed.

(** ** Rule selection *)

Lemma select_rule_first (cands : list Registered) (g : Region)
    (op : Operation) (x : Registered) (acts : list RewriteAction) :
  select_rule cands g op = Some (x, acts) ->
  ∃ l1 l2, cands = l1 ++ x :: l2
           ∧ match_and_rewrite x.2 g op = Some acts
           ∧ Forall (fun y => match_and_rewrite y.2 g op = None) l1.
Proof.
  induction cands as [|y cands IH]; cbn; [discriminate|].
  destruct (match_and_rewrite y.2 g op) as [acts'|] eqn:Hy.
  - intros [= <- <-]. exists [], cands. repeat split; [exact Hy|constructor].
  - intros Hsel. destruct (IH Hsel) as (l1 & l2 & -> & Hx & Hl1).
    exists (y :: l1), l2. repeat split; [exact Hx|].
    constructor; assumption.
Qed.

Lemma select_rule_preferred (cands : list Registered) (g : Region)
    (op : Operation) (x : Registered) (acts : list RewriteAction) :
  ordered cands ->
  select_rule cands g op = Some (x, acts) ->
  x ∈ cands
  ∧ match_and_rewrite x.2 g op = Some acts
  ∧ ∀ y, y ∈ cands -> match_and_rewrite y.2 g op ≠ None ->
         prefers x y = true.
Proof.
  intros Hord Hsel.
  destruct (select_rule_first _ _ _ _ _ Hsel) as (l1 & l2 & -> & Hx & Hl1).
  split; [apply elem_of_app; right; apply elem_of_cons; auto|].
  split; [exact Hx|].
  intros y Hy Hmatch.
  apply elem_of_app in Hy as [Hy|Hy].
  - rewrite Forall_forall in Hl1. destruct (Hmatch (Hl1 y Hy)).
  - apply elem_of_cons in Hy as [->|Hy]; [apply prefers_refl|].
    unfold ordered in Hord. apply StronglySorted_app_1_r in Hord.
    apply StronglySorted_inv in Hord as [_ Hall].
    rewrite Forall_forall in Hall. apply Hall, Hy.
Qed.


(** ** [PatternRewritePass::Initialize] *)

(** C1: a [PatternRewritePass] whose [InitializePatterns] returns an empty
    set has its [Initialize] raise the enforce error: nothing the caller
    sequences after the call happens, and in the manager's log there is no
    [Run] of that pass.  With a non-empty set, [Initialize] returns true and
    the pass then holds the frozen set: [patterns_] has, under each
    operation kind, exactly the rules of that kind that [InitializePatterns]
    registered, and the rest of the pass is as before. *)
Theorem Initialize_enforces_patterns (p : PatternRewritePass)
    (context : IrContext) :
  (Empty (InitializePatterns p context) = true ->
     PatternRewritePass_Initialize p context
     = Throw (EnforceNotMet (no_patterns_message (name (base p))))
     ∧ (∀ (A : Type) (k : bool * PatternRewritePass -> Outcome A),
          PatternRewritePass_Initialize p context ≫= k
          = Throw (EnforceNotMet (no_patterns_message (name (base p)))))
     ∧ ∀ (fuel : nat) (passes : list AnyPass) (i : nat) (op : Operation)
         (am : AnalysisManager),
         passes !! i = Some (pack p) ->
         PassManager.EvRun i
           ∉ (PassManager.Run fuel context passes op am).1)
  ∧ (Empty (InitializePatterns p context) = false ->
     ∃ p',
       PatternRewritePass_Initialize p context = Ok (true, p')
       ∧ patterns_ p'
         = FrozenRewritePatternSet_new (InitializePatterns p context)
       ∧ (∀ (kind : string) (x : Registered),
            x ∈ candidates (patterns_ p') kind
            <-> InitializePatterns p context !! x.1 = Some x.2
                ∧ root_kind x.2 = kind)
       ∧ base p' = base p
       ∧ InitializePatterns p' = InitializePatterns p).
Proof.
  unfold PatternRewritePass_Initialize. split; intros Hempty; rewrite Hempty.
  - split; [reflexivity|]. split; [reflexivity|].
    intros fuel passes i op am Hi. unfold PassManager.Run.
    apply (run_passes_never_run fuel context passes 0 i (pack p) Hi).
    intros op' am'. cbn.
    unfold PassManager.run_any, PassManager.run_pass, PassManager.and_then,
      PassManager.call_CanApplyOn, PassManager.call_Initialize,
      PassManager.finish.
    cbn. unfold PatternRewritePass_Initialize. rewrite Hempty. cbn.
    rewrite !elem_of_cons, elem_of_nil. intuition discriminate.
  - cbn. eexists. split; [reflexivity|]. cbn. split; [reflexivity|].
    split; [|split; reflexivity].
    intros kind x. unfold FrozenRewritePatternSet_new.
    rewrite elem_of_frozen, elem_of_registered. reflexivity.
Qed.

Lemma Initialize_enforces_patterns_witness :
  (PatternRewritePass_Initialize Samples.empty_pass Samples.context
   = Throw (EnforceNotMet (no_patterns_message "empty_pass"))
   ∧ PassManager.EvRun 1
       ∉ (PassManager.Run 100 Samples.context
            [pack Samples.fold_pass; pack Samples.empty_pass]
            Samples.two_region_op Samples.empty_am).1)
  ∧ ∃ p',
      PatternRewritePass_Initialize Samples.fold_pass Samples.context
      = Ok (true, p')
      ∧ patterns_ p' = FrozenRewritePatternSet_new [Samples.fold_add].
Proof.
  destruct (Initialize_enforces_patterns Samples.empty_pass Samples.context)
    as [Hempty _].
  destruct (Initialize_enforces_patterns Samples.fold_pass Samples.context)
    as [_ Hfull].
  specialize (Hempty eq_refl) as (Hthrow & _ & Hnorun).
  specialize (Hfull eq_refl) as (p' & Hinit & Hpatterns & _).
  split; [split|].
  - exact Hthrow.
  - apply Hnorun. reflexivity.
  - exists p'. split; [exact Hinit|exact Hpatterns].
Defined.

(** The manager's log for a pass list whose second pass registers no rule:
    the first pass is run, the second is initialised and never run. *)
Example manager_stops_at_empty_pass :
  (PassManager.Run 100 Samples.context
     [pack Samples.fold_pass; pack Samples.empty_pass]
     Samples.two_region_op Samples.empty_am).1
  = [PassManager.EvCanApplyOn 0 true; PassManager.EvInitialize 0;
     PassManager.EvRun 0; PassManager.EvCanApplyOn 1 true;
     PassManager.EvInitialize 1].
Proof. vm_compute. reflexivity. Qed.

(** ** The dependents of a pass *)


(** A pass that depends on a pass that is nowhere: the constructor takes
    it, [Initialize] returns true and [Run] rewrites. *)
Example unsatisfied_dependent_runs :
  detail.dependents (pass_info (base Samples.dependent_pass))
  = ["constant_folding_pass"]
  ∧ (∃ p', PatternRewritePass_Initialize Samples.dependent_pass
             Samples.context = Ok (true, p')
           ∧ returns (PatternRewritePass_Run 100 p' Samples.two_region_op)
             = true).
Proof. split; [reflexivity|]. eexists. split; [reflexivity|]. vm_compute. reflexivity. Qed.

(** ** The worklist loop and the iteration loop *)

(** A run that finished keeps its result under any larger budget. *)
Lemma ProcessWorklist_mono (fuel : nat) (fps : FrozenRewritePatternSet) :
  ∀ fuel' g wl changed tr out,
    (fuel <= fuel')%nat ->
    ProcessWorklist fuel fps g wl changed tr = Ok out ->
    ProcessWorklist fuel' fps g wl changed tr = Ok out.
Proof.
  induction fuel as [|fuel IH]; intros fuel' g wl changed tr out Hle; cbn;
    [discriminate|].
  destruct fuel' as [|fuel']; [lia|]. cbn.
  destruct wl as [|id wl]; [trivial|].
  destruct (lookup_op g id) as [op|]; [|apply IH; lia].
  destruct (select_rule _ g op) as [[x acts]|]; [|apply IH; lia].
  destruct (foldl _ _ acts). apply IH. lia.
Qed.

Lemma Simplify_mono (fps : FrozenRewritePatternSet)
    (seeding : Region -> Worklist) (remaining : nat) :
  ∀ fuel fuel' done g tr res,
    (fuel <= fuel')%nat ->
    Simplify fuel fps seeding remaining done g tr = Ok res ->
    Simplify fuel' fps seeding remaining done g tr = Ok res.
Proof.
  induction remaining as [|remaining IH]; intros fuel fuel' done g tr res Hle;
    cbn; [trivial|].
  destruct (ProcessWorklist fuel fps g (seeding g) false tr)
    as [[[g' changed] tr']| |] eqn:Hsweep; cbn; try discriminate.
  rewrite (ProcessWorklist_mono _ _ _ _ _ _ _ _ Hle Hsweep). cbn.
  destruct changed; [|trivial]. apply (IH fuel fuel' _ _ _ _ Hle).
Qed.

Lemma ProcessWorklist_pop (fuel : nat) (fps : FrozenRewritePatternSet)
    (g : Region) (id : OpId) (wl : Worklist) (changed : bool) (tr : Applied) :
  ProcessWorklist (S fuel) fps g (id :: wl) changed tr
  = match lookup_op g id with
    | None => ProcessWorklist fuel fps g wl changed tr
    | Some op =>
        match select_rule (candidates fps (op_name op)) g op with
        | None => ProcessWorklist fuel fps g wl changed tr
        | Some (x, acts) =>
            let '(g', wl') := foldl (apply_action id) (g, wl) acts in
            ProcessWorklist fuel fps g' wl' true (tr ++ [(id, x.1)])
        end
    end.
Proof. reflexivity. Qed.

(** The re-queue scenario of the driver: in [add(add(1, 2), 3)] the inner
    addition is folded first, the outer one is re-examined in the same
    invocation and folded to the constant 6; the second sweep fires no rule
    and the driver reports convergence. *)
Example fold_add_requeue :
  ∃ res,
    ApplyPatternsGreedily 100 Samples.sum_region
      (FrozenRewritePatternSet_new [Samples.fold_add]) Samples.top_down_10
    = Ok res
    ∧ converged res = true
    ∧ sweeps res = 2%nat
    ∧ applied res = [(3, 0); (5, 0)]%nat
    ∧ Samples.const_of (rewritten res) 7 = Some 6%Z
    ∧ lookup_op (rewritten res) 3 = None
    ∧ lookup_op (rewritten res) 5 = None.
Proof. eexists. split; [vm_compute; reflexivity|]. repeat split. Qed.

(** ** The discipline determines the run *)

Lemma chosen_unique (ps : RewritePatternSet) (g : Region) (op : Operation)
    (i j : nat) (acts acts' : list RewriteAction) :
  chosen ps g op i acts -> chosen ps g op j acts' -> i = j ∧ acts = acts'.
Proof.
  intros [i1 p acts1 Hp Hkp Hmp Hbest] [i2 q acts2 Hq Hkq Hmq Hbest'].
  assert (Hpq : (benefit q < benefit p)%nat
                ∨ (benefit q = benefit p ∧ (i1 <= i2)%nat)).
  { apply (Hbest i2 q Hq Hkq). congruence. }
  assert (Hqp : (benefit p < benefit q)%nat
                ∨ (benefit p = benefit q ∧ (i2 <= i1)%nat)).
  { apply (Hbest' i1 p Hp Hkp). congruence. }
  assert (i1 = i2) as -> by lia.
  split; [reflexivity|]. congruence.
Qed.

Lemma chosen_not_unmatched (ps : RewritePatternSet) (g : Region)
    (op : Operation) (i : nat) (acts : list RewriteAction) :
  chosen ps g op i acts -> unmatched ps g op -> False.
Proof.
  intros [i1 p acts1 Hp Hkp Hmp _] Hnone.
  specialize (Hnone i1 p Hp Hkp). congruence.
Qed.

Lemma pop_deterministic (ps : RewritePatternSet) (s s1 s2 : DriverState) :
  pop ps s s1 -> pop ps s s2 -> s1 = s2.
Proof.
  intros H1 H2.
  destruct H1 as [g id wl changed tr Hstale
                 |g id wl changed tr op Hop Hnone
                 |g id wl changed tr op i acts g' wl' Hop Hchosen Hacts];
    inversion H2; subst; try reflexivity; try congruence;
    repeat match goal with
    | Ha : lookup_op ?g ?id = Some ?a, Hb : lookup_op ?g ?id = Some ?b |- _ =>
        assert (a = b) by congruence; subst; clear Hb
    end.
  - exfalso. eapply chosen_not_unmatched; eassumption.
  - exfalso. eapply chosen_not_unmatched; eassumption.
  - match goal with
    | Hchosen' : chosen ps g _ ?j ?acts' |- _ =>
        destruct (chosen_unique _ _ _ _ _ _ _ Hchosen Hchosen') as [<- <-]
    end.
    congruence.
Qed.

Lemma sweep_deterministic (ps : RewritePatternSet) (s : DriverState)
    (out1 out2 : Region * bool * Applied) :
  sweep ps s out1 -> sweep ps s out2 -> out1 = out2.
Proof.
  intros H1. revert out2.
  induction H1 as [g changed tr|s s' out Hpop Hsweep IH]; intros out2 H2.
  - inversion H2 as [|? ? ? Hpop _]; subst; [reflexivity|inversion Hpop].
  - inversion H2 as [|? s'' ? Hpop' Hsweep']; subst; [inversion Hpop|].
    rewrite (pop_deterministic _ _ _ _ Hpop' Hpop) in Hsweep'.
    apply IH, Hsweep'.
Qed.

Lemma iterations_deterministic (ps : RewritePatternSet)
    (seeding : Region -> Worklist) (remaining done : nat) (g : Region)
    (tr : Applied) (res1 res2 : RewriteResult) :
  iterations ps seeding remaining done g tr res1 ->
  iterations ps seeding remaining done g tr res2 ->
  res1 = res2.
Proof.
  intros H1. revert res2.
  induction H1 as [done g tr
                  |remaining done g tr g' tr' Hsweep
                  |remaining done g tr g' tr' res Hsweep Hrest IH];
    intros res2 H2; inversion H2 as [| ? ? ? ? g2 tr2 Hsweep2
                                       | ? ? ? ? g2 tr2 ? Hsweep2 Hrest2];
    subst; try reflexivity;
    pose proof (sweep_deterministic _ _ _ _ Hsweep Hsweep2) as Heq;
    try discriminate; injection Heq as <- <-; [reflexivity|].
  apply IH, Hrest2.
Qed.

(** ** The driver follows the discipline *)

Lemma select_rule_none (cands : list Registered) (g : Region)
    (op : Operation) :
  select_rule cands g op = None ->
  ∀ y, y ∈ cands -> match_and_rewrite y.2 g op = None.
Proof.
  induction cands as [|x cands IH]; cbn; intros Hsel y Hy.
  - apply elem_of_nil in Hy as [].
  - destruct (match_and_rewrite x.2 g op) eqn:Hx; [discriminate|].
    apply elem_of_cons in Hy as [->|Hy]; [exact Hx|apply IH; assumption].
Qed.

Lemma select_rule_chosen (ps : RewritePatternSet) (g : Region)
    (op : Operation) (x : Registered) (acts : list RewriteAction) :
  select_rule (candidates (FrozenRewritePatternSet_new ps) (op_name op)) g op
  = Some (x, acts) ->
  chosen ps g op x.1 acts.
Proof.
  unfold FrozenRewritePatternSet_new. intros Hsel.
  apply select_rule_preferred in Hsel as (Hx & Hmatch & Hbest);
    [|apply frozen_ordered].
  apply elem_of_frozen in Hx as [Hx Hkind].
  apply elem_of_registered in Hx.
  apply (chosen_rule ps g op x.1 x.2 acts Hx Hkind Hmatch).
  intros j q Hj Hq Hq_match.
  apply (prefers_spec x (j, q)), Hbest; [|exact Hq_match].
  apply elem_of_frozen. split; [|exact Hq].
  apply elem_of_registered. exact Hj.
Qed.

Lemma select_rule_unmatched (ps : RewritePatternSet) (g : Region)
    (op : Operation) :
  select_rule (candidates (FrozenRewritePatternSet_new ps) (op_name op)) g op
  = None ->
  unmatched ps g op.
Proof.
  unfold FrozenRewritePatternSet_new. intros Hsel j q Hj Hq.
  apply (select_rule_none _ _ _ Hsel (j, q)).
  apply elem_of_frozen. split; [|exact Hq].
  apply elem_of_registered. exact Hj.
Qed.

Lemma ProcessWorklist_sweep (ps : RewritePatternSet) (fuel : nat) :
  ∀ g wl changed tr out,
    ProcessWorklist fuel (FrozenRewritePatternSet_new ps) g wl changed tr
    = Ok out ->
    sweep ps (g, wl, changed, tr) out.
Proof.
  induction fuel as [|fuel IH]; intros g wl changed tr out; [discriminate|].
  destruct wl as [|id wl].
  - cbn. intros [= <-]. constructor.
  - rewrite ProcessWorklist_pop.
    destruct (lookup_op g id) as [op|] eqn:Hop.
    + destruct (select_rule _ g op) as [[x acts]|] eqn:Hsel.
      * intros Hrest.
        destruct (foldl _ _ acts) as [g' wl'] eqn:Hacts.
        eapply sweep_pop; [|apply IH, Hrest].
        eapply pop_rewrite; [exact Hop| |exact Hacts].
        apply select_rule_chosen, Hsel.
      * intros Hrest. eapply sweep_pop; [|apply IH, Hrest].
        eapply pop_unmatched; [exact Hop|].
        apply select_rule_unmatched, Hsel.
    + intros Hrest. eapply sweep_pop; [|apply IH, Hrest].
      apply pop_stale, Hop.
Qed.

Lemma Simplify_iterations (ps : RewritePatternSet)
    (seeding : Region -> Worklist) (fuel remaining : nat) :
  ∀ done g tr res,
    Simplify fuel (FrozenRewritePatternSet_new ps) seeding remaining done g tr
    = Ok res ->
    iterations ps seeding remaining done g tr res.
Proof.
  induction remaining as [|remaining IH]; intros done g tr res; cbn.
  - intros [= <-]. constructor.
  - destruct (ProcessWorklist fuel _ g (seeding g) false tr)
      as [[[g' changed] tr']| |] eqn:Hsweep; cbn; try discriminate.
    apply ProcessWorklist_sweep in Hsweep.
    destruct changed.
    + intros Hrest. eapply iterations_again; [exact Hsweep|apply IH, Hrest].
    + intros [= <-]. apply iterations_converged, Hsweep.
Qed.

(** What the discipline allows, the driver does, given budget enough. *)
Lemma sweep_ProcessWorklist (ps : RewritePatternSet) (s : DriverState)
    (out : Region * bool * Applied) :
  sweep ps s out ->
  ∃ fuel,
    ProcessWorklist fuel (FrozenRewritePatternSet_new ps)
      s.1.1.1 s.1.1.2 s.1.2 s.2 = Ok out.
Proof.
  induction 1 as [g changed tr|s s' out Hpop Hsweep [fuel IH]].
  - exists 1%nat. reflexivity.
  - exists (S fuel).
    destruct Hpop as [g id wl changed tr Hstale
                     |g id wl changed tr op Hop Hnone
                     |g id wl changed tr op i acts g' wl' Hop Hchosen Hacts];
      cbn [fst snd] in *; rewrite ProcessWorklist_pop.
    + rewrite Hstale. exact IH.
    + rewrite Hop.
      destruct (select_rule _ g op) as [[x acts]|] eqn:Hsel; [|exact IH].
      exfalso. apply select_rule_chosen in Hsel.
      exact (chosen_not_unmatched _ _ _ _ _ Hsel Hnone).
    + rewrite Hop.
      destruct (select_rule _ g op) as [[x acts']|] eqn:Hsel.
      * apply select_rule_chosen in Hsel.
        destruct (chosen_unique _ _ _ _ _ _ _ Hsel Hchosen) as [-> ->].
        rewrite Hacts. exact IH.
      * exfalso. apply select_rule_unmatched in Hsel.
        exact (chosen_not_unmatched _ _ _ _ _ Hchosen Hsel).
Qed.

Lemma iterations_Simplify (ps : RewritePatternSet)
    (seeding : Region -> Worklist) (remaining done : nat) (g : Region)
    (tr : Applied) (res : RewriteResult) :
  iterations ps seeding remaining done g tr res ->
  ∃ fuel,
    Simplify fuel (FrozenRewritePatternSet_new ps) seeding remaining done g tr
    = Ok res.
Proof.
  induction 1 as [done g tr
                 |remaining done g tr g' tr' Hsweep
                 |remaining done g tr g' tr' res Hsweep Hrest [fuel2 IH]].
  - exists 0%nat. reflexivity.
  - apply sweep_ProcessWorklist in Hsweep as [fuel Hsweep].
    exists fuel. cbn in *. rewrite Hsweep. reflexivity.
  - apply sweep_ProcessWorklist in Hsweep as [fuel1 Hsweep]. cbn in Hsweep.
    exists (Nat.max fuel1 fuel2). cbn.
    rewrite (ProcessWorklist_mono fuel1 _ (Nat.max fuel1 fuel2)
               _ _ _ _ _ (Nat.le_max_l _ _) Hsweep). cbn.
    apply (Simplify_mono _ _ _ fuel2); [lia|exact IH].
Qed.

(** C6: the worklist discipline leaves no choice.  Runs are described by
    the order of the worklist, what is re-queued, and the rule applied to
    an operation: among the matching rules of its kind the one of highest
    benefit, the earliest registered among equals.  Any two runs that obey
    this on the same region with the same pattern set end with the same
    graph and the same rule applications in the same order; the runs of
    the driver are exactly those runs, so two runs of the driver agree,
    whatever their step budgets. *)
Theorem driver_deterministic (ps : RewritePatternSet) (r : Region)
    (cfg : GreedyRewriteConfig) :
  let fps := FrozenRewritePatternSet_new ps in
  let obeys := iterations ps (seed cfg) (max_iterations cfg) 0 r [] in
  (∀ res1 res2, obeys res1 -> obeys res2 -> res1 = res2)
  ∧ (∀ res,
       obeys res <-> ∃ fuel, ApplyPatternsGreedily fuel r fps cfg = Ok res)
  ∧ (∀ fuel1 fuel2 res1 res2,
       ApplyPatternsGreedily fuel1 r fps cfg = Ok res1 ->
       ApplyPatternsGreedily fuel2 r fps cfg = Ok res2 ->
       rewritten res1 = rewritten res2 ∧ applied res1 = applied res2).
Proof.
  cbn zeta. split; [|split].
  - intros res1 res2. apply iterations_deterministic.
  - intros res. unfold ApplyPatternsGreedily. split.
    + apply iterations_Simplify.
    + intros [fuel Hres]. apply Simplify_iterations in Hres. exact Hres.
  - intros fuel1 fuel2 res1 res2 H1 H2. unfold ApplyPatternsGreedily in *.
    apply Simplify_iterations in H1, H2.
    rewrite (iterations_deterministic _ _ _ _ _ _ _ _ H1 H2).
    split; reflexivity.
Qed.

Lemma driver_deterministic_witness :
  ∃ res1 res2,
    ApplyPatternsGreedily 50 Samples.sum_region
      (FrozenRewritePatternSet_new [Samples.fold_add]) Samples.top_down_10
    = Ok res1
    ∧ ApplyPatternsGreedily 100 Samples.sum_region
        (FrozenRewritePatternSet_new [Samples.fold_add]) Samples.top_down_10
      = Ok res2
    ∧ applied res1 = [(3, 0); (5, 0)]%nat
    ∧ (rewritten res1 = rewritten res2 ∧ applied res1 = applied res2).
Proof.
  eexists. eexists.
  split; [vm_compute; reflexivity|]. split; [vm_compute; reflexivity|].
  split; [reflexivity|].
  destruct (driver_deterministic [Samples.fold_add] Samples.sum_region
              Samples.top_down_10) as (_ & _ & Hsame).
  apply (Hsame 50%nat 100%nat); vm_compute; reflexivity.
Defined.

(** * Further properties of pass.h *)

Lemma after_call_pass_info (p : PatternRewritePass) (c : InterfaceCall) :
  pass_info (base (after_call p c)) = pass_info (base p).
Proof.
  destruct c; cbn; try reflexivity.
  - unfold SignalPassFailure.
    destruct (pass_state (base p)); reflexivity.
  - unfold PatternRewritePass_Initialize.
    destruct (Empty (InitializePatterns p context)); reflexivity.
  - unfold PatternRewritePass_Run.
    destruct (Run_with _ _ p op); reflexivity.
Qed.

(** X1: the identity of a pass is fixed at construction: whatever members
    of the header are called on a pass, in whatever order, [pass_info()] and
    [name()] keep answering the same, which for a pass fresh from its
    constructor is what the constructor was given. *)
Theorem pass_info_never_changes (p : PatternRewritePass)
    (calls : list InterfaceCall) :
  pass_info (base (foldl after_call p calls)) = pass_info (base p)
  ∧ name (base (foldl after_call p calls)) = name (base p)
  ∧ ∀ n level deps init,
      p = PatternRewritePass_new n level deps init ->
      pass_info (base (foldl after_call p calls))
      = detail.mkPassInfo n level deps
      ∧ name (base (foldl after_call p calls)) = n.
Proof.
  assert (Hinfo : pass_info (base (foldl after_call p calls))
                  = pass_info (base p)).
  { revert p. induction calls as [|c calls IH]; intros p; cbn; [reflexivity|].
    rewrite IH. apply after_call_pass_info. }
  unfold name. rewrite Hinfo.
  split; [reflexivity|]. split; [reflexivity|].
  intros n level deps init ->. split; reflexivity.
Qed.

Lemma pass_info_never_changes_witness :
  name (base (foldl after_call Samples.fold_pass
                [call_Initialize Samples.context; call_SignalPassFailure;
                 call_Run 100 Samples.two_region_op]))
  = "constant_folding_pass".
Proof.
  destruct (pass_info_never_changes Samples.fold_pass
              [call_Initialize Samples.context; call_SignalPassFailure;
               call_Run 100 Samples.two_region_op]) as (_ & _ & Hnew).
  apply (Hnew "constant_folding_pass" 1%Z []
           (fun _ => [Samples.fold_add])).
  reflexivity.
Defined.

(** X2: [SignalPassFailure] writes the flag and nothing else: the pass
    info, the [ir], the analysis manager and the preserved analyses of the
    state are as before, and signalling a second time changes nothing. *)
Theorem SignalPassFailure_frame (p b : Pass) :
  SignalPassFailure p = Ok b ->
  pass_info b = pass_info p
  ∧ analysis_manager b = analysis_manager p
  ∧ SignalPassFailure b = Ok b
  ∧ ∃ st st',
      pass_state p = Ok st ∧ pass_state b = Ok st'
      ∧ detail.pass_failed st' = true
      ∧ detail.ir st' = detail.ir st
      ∧ detail.am st' = detail.am st
      ∧ detail.preserved_analyses st' = detail.preserved_analyses st.
Proof.
  intros Hsig. unfold SignalPassFailure in Hsig.
  destruct (pass_state p) as [st| |] eqn:Hst; cbn in Hsig; try discriminate.
  injection Hsig as <-.
  assert (Hb : pass_state
                 (set_pass_state p (Some (detail.set_pass_failed st true)))
               = Ok (detail.set_pass_failed st true)).
  { apply pass_state_Some. reflexivity. }
  split; [reflexivity|]. split; [|split].
  - unfold analysis_manager. rewrite Hb, Hst. reflexivity.
  - unfold SignalPassFailure. rewrite Hb. reflexivity.
  - exists st, (detail.set_pass_failed st true). repeat split; assumption.
Qed.

Lemma SignalPassFailure_frame_witness :
  ∃ b, SignalPassFailure (base Samples.running_pass) = Ok b
       ∧ analysis_manager b = Ok Samples.empty_am
       ∧ SignalPassFailure b = Ok b.
Proof.
  eexists. split; [reflexivity|].
  destruct (SignalPassFailure_frame (base Samples.running_pass) _ eq_refl)
    as (_ & Ham & Hagain & _).
  split; [exact Ham | exact Hagain].
Defined.



(** X4: [Run] throws the driver's report away: whether the driver says it
    converged, how many sweeps it made and what it applied has no effect on
    what [Run] does; only the rewritten region counts. *)
Theorem Run_ignores_report (dflt : GreedyRewriteConfig)
    (driver : Region -> FrozenRewritePatternSet -> GreedyRewriteConfig ->
              Outcome RewriteResult)
    (f : RewriteResult -> RewriteResult)
    (p : PatternRewritePass) (op : Operation) :
  (∀ res, rewritten (f res) = rewritten res) ->
  Run_with dflt (fun r fps cfg => res ← driver r fps cfg; Ok (f res)) p op
  = Run_with dflt driver p op.
Proof.
  intros Hf. unfold Run_with.
  destruct (region op 0) as [r| |]; cbn; try reflexivity.
  destruct (driver r (patterns_ p) _) as [res| |]; cbn; try reflexivity.
  rewrite Hf. reflexivity.
Qed.

Lemma Run_ignores_report_witness :
  Run_with GreedyRewriteConfig_default
    (fun r fps cfg =>
       res ← ApplyPatternsGreedily 100 r fps cfg; Ok (forget_report res))
    Samples.ready_pass Samples.two_region_op
  = Run_with GreedyRewriteConfig_default (ApplyPatternsGreedily 100)
      Samples.ready_pass Samples.two_region_op.
Proof.
  apply (Run_ignores_report GreedyRewriteConfig_default
           (ApplyPatternsGreedily 100) forget_report).
  intros res. reflexivity.
Defined.

(** X5: [Initialize] followed by [Run]: the pattern set the driver is
    called with is the one [InitializePatterns] returned for the context of
    the initialisation, frozen, whatever the pass held before. *)
Theorem Initialize_then_Run (dflt : GreedyRewriteConfig)
    (driver : Region -> FrozenRewritePatternSet -> GreedyRewriteConfig ->
              Outcome RewriteResult)
    (p p' : PatternRewritePass) (context : IrContext) (answer : bool)
    (op : Operation) (r : Region) :
  PatternRewritePass_Initialize p context = Ok (answer, p') ->
  op_regions op !! 0%nat = Some r ->
  Run_with dflt driver p' op
  = (res ← driver r
             (FrozenRewritePatternSet_new (InitializePatterns p context))
             {| use_top_down_traversal := true; max_iterations := 10 |};
     Ok (set_regions op (<[0%nat := rewritten res]> (op_regions op)))).
Proof.
  unfold PatternRewritePass_Initialize.
  destruct (Empty (InitializePatterns p context)); cbn; [discriminate|].
  intros [= <- <-] Hr. unfold Run_with, region. rewrite Hr. reflexivity.
Qed.

Lemma Initialize_then_Run_witness :
  Run_with GreedyRewriteConfig_default (ApplyPatternsGreedily 100)
    Samples.ready_pass Samples.two_region_op
  = (res ← ApplyPatternsGreedily 100 Samples.sum_region
             (FrozenRewritePatternSet_new [Samples.fold_add])
             {| use_top_down_traversal := true; max_iterations := 10 |};
     Ok (set_regions Samples.two_region_op
           (<[0%nat := rewritten res]> (op_regions Samples.two_region_op)))).
Proof.
  apply (Initialize_then_Run GreedyRewriteConfig_default
           (ApplyPatternsGreedily 100) Samples.fold_pass Samples.ready_pass
           Samples.context true Samples.two_region_op Samples.sum_region);
    reflexivity.
Defined.

(** * Properties of enforce.h *)

Section EnforceFacts.

Context `{common.Externals}.

Import common.

Lemma compare_holds (c : Comparison) (a b : Z) :
  compare c a b = true <-> holds c a b.
Proof.
  destruct c; cbn.
  - apply Z.eqb_eq.
  - rewrite negb_true_iff. apply Z.eqb_neq.
  - rewrite Z.ltb_lt. lia.
  - rewrite Z.leb_le. lia.
  - apply Z.ltb_lt.
  - apply Z.leb_le.
Qed.

(** The operator each macro hands over as [__INV_CMP]. *)
Lemma COMMON_ENFORCE_unfold (c : Comparison) :
  ∃ inv, COMMON_ENFORCE c
         = (fun site a b s => COMMON_BINARY_COMPARE site a b c inv s)
         ∧ (spelling c, spelling inv)
             ∈ [("==", "!="); ("!=", "=="); (">", "<="); (">=", "<");
                ("<", ">="); ("<=", ">")]
         ∧ ∀ x y, holds inv x y <-> ¬ holds c x y.
Proof.
  destruct c; [exists NE|exists EQ|exists LE|exists LT|exists GE|exists GT];
    (split; [reflexivity|]);
    (split; [cbn; rewrite !elem_of_cons; tauto|]); intros x y; cbn; lia.
Qed.

Lemma c_str_no_nul (s : string) : no_nul s = true -> c_str s = s.
Proof.
  induction s as [|c s IH]; cbn; [reflexivity|].
  destruct (Ascii.eqb c "000"); cbn; [discriminate|].
  intros Hs. rewrite (IH Hs). reflexivity.
Qed.

Lemma c_str_has_no_nul (s : string) : no_nul (c_str s) = true.
Proof.
  induction s as [|c s IH]; cbn; [reflexivity|].
  destruct (Ascii.eqb c "000") eqn:Hc; cbn; [reflexivity|].
  rewrite Hc, IH. reflexivity.
Qed.

(** X6: [what()] after [set_error_str(str)], read as the C string it is,
    answers [str] up to its first NUL, hence [str] itself when it has none,
    as long as the call stack level stays on the same side of 1; when the
    level has moved across, [what()] answers as if [set_error_str] had not
    been called.  The error code is never changed. *)
Theorem set_error_str_then_what (level level' : Z) (e : EnforceNotMet)
    (str : string) :
  ((1 <? level)%Z = (1 <? level')%Z ->
     what level' (set_error_str level e str) = c_str str
     ∧ (no_nul str = true ->
        what level' (set_error_str level e str) = str))
  ∧ ((1 <? level)%Z <> (1 <? level')%Z ->
     what level' (set_error_str level e str) = what level' e)
  ∧ code (set_error_str level e str) = code e.
Proof.
  unfold what, set_error_str.
  destruct (1 <? level)%Z, (1 <? level')%Z; cbn; repeat split;
    intros; try congruence; try (apply c_str_no_nul; assumption).
Qed.

(** X7: the first constructor keeps the code of an [EnforceNotMet] it
    wraps, through any number of wrappings; it gives [LEGACY] to any other
    [std::exception]; and it does not catch what is not a
    [std::exception]. *)
Theorem rewrapping_keeps_code (level : Z) (file : string) (line : Z) :
  (∀ n e, ∃ e', rewrap n level file line e = Some e' ∧ code e' = code e)
  ∧ (∀ w, ∃ e',
       EnforceNotMet_of_exception level (held_std_exception w) file line
       = Some e'
       ∧ code e' = LEGACY)
  ∧ EnforceNotMet_of_exception level held_other file line = None.
Proof.
  split; [|split].
  - intros n. induction n as [|n IH]; intros e; cbn.
    + exists e. split; reflexivity.
    + destruct (IH (mkEnforceNotMet (code e)
                      (GetTraceBackString level (what level e) file line)
                      (SimplifyErrorTypeFormat
                         (GetTraceBackString level (what level e) file line))))
        as (e' & He' & Hcode).
      exists e'. split; [exact He'|exact Hcode].
  - intros w. eexists. split; reflexivity.
  - reflexivity.
Qed.

(** X8: whichever constructor built it, and however often it was wrapped
    again, an [EnforceNotMet] has for simple error string the
    simplification of its error string; [what()], read as a C string, is
    the error string above call stack level 1 and its simplification
    otherwise, each up to its first NUL. *)
Theorem constructed_consistent (e : EnforceNotMet) :
  constructed e ->
  simple_error_str e = SimplifyErrorTypeFormat (error_str e)
  ∧ (∀ level,
       what level e
       = c_str (if (1 <? level)%Z then error_str e
                else SimplifyErrorTypeFormat (error_str e)))
  ∧ ∀ n level file line e',
      rewrap n level file line e = Some e' ->
      simple_error_str e' = SimplifyErrorTypeFormat (error_str e').
Proof.
  intros Hc.
  assert (Hs : simple_error_str e = SimplifyErrorTypeFormat (error_str e)).
  { destruct Hc as [| |level held file line e Hheld]; try reflexivity.
    destruct held; cbn in Hheld; try discriminate;
      injection Hheld as <-; reflexivity. }
  split; [exact Hs|]. split.
  - intros level. unfold what, error_str, simple_error_str in *.
    destruct (1 <? level)%Z; [reflexivity|]. rewrite Hs. reflexivity.
  - intros n level file line. clear Hc. revert e Hs.
    induction n as [|n IH]; intros e Hs e'; cbn.
    + intros [= <-]. exact Hs.
    + apply IH. reflexivity.
Qed.

(** X9: on two integers of one type, each of the six [COMMON_ENFORCE_*]
    macros passes, doing nothing, exactly when its relation holds of the
    values; otherwise it throws an [EnforceNotMet] whose code is the code of
    the caller's error summary. *)
Theorem COMMON_ENFORCE_passes_iff (c : Comparison) (site : Site) (a b : Z)
    (summary : ErrorSummary) :
  (COMMON_ENFORCE c site a b summary = Passed <-> holds c a b)
  ∧ ∀ e, COMMON_ENFORCE c site a b summary = Thrown e ->
         ¬ holds c a b ∧ code e = summary_code summary.
Proof.
  destruct (COMMON_ENFORCE_unfold c) as (inv & -> & _ & _).
  unfold COMMON_BINARY_COMPARE.
  pose proof (compare_holds c a b) as Hspec.
  destruct (compare c a b); cbn.
  - split; [tauto|]. intros e He. discriminate He.
  - assert (Hnot : ¬ holds c a b).
    { intros Hh. apply Hspec in Hh. discriminate Hh. }
    split; [split; [intros Hx; discriminate Hx | tauto]|].
    intros e [= <-]. split; [exact Hnot|reflexivity].
Qed.

(** X10: the hint of a failed [COMMON_ENFORCE_*] on two integers of one
    type tells the truth.  The message is formatted from
    "[Hint: Expected %s CMP %s, but received %s INV %s.]" with the enforced
    operator spelled first and the operator the macro passes as [__INV_CMP]
    spelled second, and that second operator holds of two integers exactly
    when the enforced one does not, so it holds of the values that made
    the macro throw. *)
Theorem COMMON_ENFORCE_hint_truthful (c : Comparison) (site : Site) (a b : Z)
    (summary : ErrorSummary) (e : EnforceNotMet) :
  COMMON_ENFORCE c site a b summary = Thrown e ->
  ∃ inv,
    e = EnforceNotMet_of_summary (site_level site)
          (mkErrorSummary (summary_code summary)
             (Sprintf
                ("%s" +:+ endl +:+ "  [Hint: Expected %s " +:+ spelling c
                 +:+ " %s, but received %s " +:+ spelling inv +:+ " %s.]")
                [arg_str (error_message summary);
                 arg_str (site_VAL1 site);
                 arg_str (site_VAL2 site);
                 arg_str (Convert (kCanToString site) (site_VAL1 site) a);
                 arg_str (Convert (kCanToString site) (site_VAL2 site) b)]))
          (site_file site) (site_line site)
    ∧ (spelling c, spelling inv)
        ∈ [("==", "!="); ("!=", "=="); (">", "<="); (">=", "<");
           ("<", ">="); ("<=", ">")]
    ∧ holds inv a b
    ∧ ∀ x y, holds inv x y <-> ¬ holds c x y.
Proof.
  destruct (COMMON_ENFORCE_unfold c) as (inv & Hmacro & Hspell & Hinv).
  rewrite Hmacro. unfold COMMON_BINARY_COMPARE.
  destruct (compare c a b) eqn:Hcmp; cbn; [discriminate|].
  intros [= <-]. exists inv. split; [reflexivity|]. split; [exact Hspell|].
  split; [|exact Hinv].
  apply Hinv. rewrite <- compare_holds. congruence.
Qed.

End EnforceFacts.

Lemma set_error_str_then_what_witness :
  let e := common.EnforceNotMet_of_string 0 "boom" "pass.cc" 42 in
  common.what 0 (common.set_error_str 0 e "replaced") = "replaced"
  ∧ common.what 2 (common.set_error_str 0 e "replaced") = common.what 2 e.
Proof.
  cbn zeta. split.
  - apply (set_error_str_then_what 0 0); reflexivity.
  - apply (set_error_str_then_what 0 2). discriminate.
Defined.

(** A string with a NUL in it is cut by [what()] at the NUL. *)
Example what_stops_at_NUL :
  common.what 0
    (common.set_error_str 0
       (common.EnforceNotMet_of_string 0 "boom" "pass.cc" 42)
       (String "a" (String "b" (String "000" "cd"))))
  = "ab".
Proof. reflexivity. Qed.

Lemma constructed_consistent_witness :
  let e := common.EnforceNotMet_of_string 2 "boom" "pass.cc" 42 in
  common.simple_error_str e
  = common.SimplifyErrorTypeFormat (common.error_str e).
Proof.
  cbn zeta.
  apply (constructed_consistent
           (common.EnforceNotMet_of_string 2 "boom" "pass.cc" 42)).
  apply common.constructed_of_string.
Defined.

Lemma COMMON_ENFORCE_passes_iff_witness :
  common.COMMON_ENFORCE common.LE SampleExternals.site 1 2
    SampleExternals.summary = common.Passed
  ∧ ∃ e, common.COMMON_ENFORCE common.EQ SampleExternals.site 1 2
           SampleExternals.summary = common.Thrown e
         ∧ common.code e = 3%nat.
Proof.
  split.
  - apply (COMMON_ENFORCE_passes_iff common.LE). cbn. lia.
  - eexists. split; [reflexivity|].
    eapply (COMMON_ENFORCE_passes_iff common.EQ SampleExternals.site 1 2
              SampleExternals.summary).
    reflexivity.
Defined.

Lemma COMMON_ENFORCE_hint_truthful_witness :
  ∃ e inv,
    common.COMMON_ENFORCE common.GT SampleExternals.site 1 2
      SampleExternals.summary = common.Thrown e
    ∧ common.spelling inv = "<="
    ∧ common.holds inv 1 2.
Proof.
  destruct (COMMON_ENFORCE_hint_truthful common.GT SampleExternals.site 1 2
              SampleExternals.summary _ eq_refl)
    as (inv & He & Hspell & Hholds & Hneg).
  eexists. exists inv. split; [reflexivity|]. split; [|exact Hholds].
  destruct inv; cbn in Hholds; try lia; try reflexivity;
    exfalso; destruct (Hneg 1%Z 1%Z) as [_ Hback]; cbn in Hback; lia.
Defined.
